(** * InfiniLM: service sessions, batcher, forward-pass contract

    Shallow embedding of the parts of InfiniLM the specification talks
    about:
    - [Session::revert], [Session::restore_cache] and the drop of a
      [BusySession] (src/service/src/session/mod.rs), over a model of
      [Dialog] and [Cache];
    - the [Batcher] queue (src/service/src/session/batcher.rs);
    - the per-shard kernel schedule of the tensor-parallel forward pass
      (src/models/llama/nvidia-gpu-distributed/src/lib.rs);
    - the data type chosen by the CPU transformer and its [decode]
      assertion (src/transformer-cpu/src/lib.rs);
    - the MoE [topk] routine (src/models/mixtral/cpu/src/infer.rs);
    - tokenizer and normalizer detection (src/service/src/lib.rs). *)

From Stdlib Require Import ZArith Lia Permutation Sorted.
From stdpp Require Import base list gmap.
From Stdlib Require Strings.String Strings.Ascii.

Open Scope Z_scope.

(** Tokens ([utok]). *)
Definition utok := Z.

(* ================================================================= *)
(** ** Dialog *)

Module Dialog.

(** Modelled from the spec: [Dialog] (src/service/src/session/dialog.rs
    is not part of the sources).  "ordered sequence of Sentences; each
    Sentence is a contiguous token run tagged implicitly by parity
    (even = user, odd = assistant)"; "grown by extend; truncated by
    revert". *)
Record t := mk { sentences : list (list utok) }.

Definition default : t := mk [].

Definition num_sentences (d : t) : nat := length (sentences d).

Definition num_tokens (d : t) : nat := sum_list (map length (sentences d)).

Definition push (d : t) (s : list utok) : t := mk (sentences d ++ [s]).

(** Truncate to the first [n] sentences. *)
Definition revert (d : t) (n : nat) : t := mk (take n (sentences d)).

(** The last sentence when it is a user prompt (even index). *)
Definition last_prompt (d : t) : option (list utok) :=
  if Nat.odd (num_sentences d) then last (sentences d) else None.

(** The most recent whole sentences fitting in [len] tokens, and the
    position of their first token in the dialog. *)
Fixpoint window_rev (ss : list (list utok)) (len : nat) : list utok :=
  match ss with
  | [] => []
  | s :: ss' =>
      if Nat.leb (length s) len
      then window_rev ss' (len - length s) ++ s
      else []
  end.

Definition window (d : t) (len : nat) : list utok * nat :=
  let toks := window_rev (reverse (sentences d)) len in
  (toks, (num_tokens d - length toks)%nat).

End Dialog.

(* ================================================================= *)
(** ** Cache *)

Module Cache.

(** Modelled from the spec: [Cache] (src/service/src/session/cache.rs is
    not part of the sources).  [tokens] is the token list, whose first
    element sits at dialog position [pos]; [cached_start, cached_end)
    (relative to [tokens]) is the window whose KV is valid.  [end] is the
    dialog position one past the last token of the list: this is the
    reading under which [Session::extend]'s
    [assert_eq!(cache.end(), self.dialog.num_tokens())] holds after
    [cache.extend], which by the spec does not compute any KV. *)
Record t := mk {
  tokens : list utok;
  pos : nat;
  cached_start : nat;
  cached_end : nat;
}.

Definition new (toks : list utok) : t := mk toks 0 0 0.

Definition end_ (c : t) : nat := (pos c + length (tokens c))%nat.

(** [extend(tokens)] appends, does not advance the KV window. *)
Definition extend (c : t) (ts : list utok) : t :=
  mk (tokens c ++ ts) (pos c) (cached_start c) (cached_end c).

(** [push(token)] = [extend([token])]. *)
Definition push (c : t) (x : utok) : t := extend c [x].

(** [slice_tail(from)]: the tokens from dialog position [from] on. *)
Definition slice_tail (c : t) (from : nat) : list utok :=
  drop (from - pos c) (tokens c).

(** [revert(n)]: [None] when [n] lies before the retained window,
    otherwise shrink the token list to dialog length [n]. *)
Definition revert (c : t) (n : nat) : option t :=
  if Nat.ltb n (pos c) then None
  else Some (mk (take (n - pos c) (tokens c)) (pos c) (cached_start c)
                (Nat.min (cached_end c) (n - pos c))).

(** [reset_with(tokens, pos)]: discard the KV window. *)
Definition reset_with (c : t) (toks : list utok) (p : nat) : t :=
  mk toks p 0 0.

Definition get_last_cached_range_len (c : t) : nat :=
  (cached_end c - cached_start c)%nat.

(** [cleanup_before_start()]: drop the tokens preceding the window. *)
Definition cleanup_before_start (c : t) : t :=
  mk (drop (cached_start c) (tokens c)) (pos c + cached_start c) 0
     (cached_end c - cached_start c).

End Cache.

(* ================================================================= *)
(** ** Session (src/service/src/session/mod.rs) *)

Module Session.

(** [SampleArgs { temperature, top_k, top_p }]; the floats are kept as
    opaque bit patterns. *)
Record SampleArgs := mkSample { temperature : Z; top_k : nat; top_p : Z }.

(** The shared component reduced to what the session code reads:
    [model.max_seq_len()] and [model.eos_token()]. *)
Record Component := mkComponent { max_seq_len : nat; eos_token : utok }.

Record Session := mkSession {
  component : Component;
  sample : SampleArgs;
  dialog : Dialog.t;
  cache : option Cache.t;
}.

Inductive ChatError := ChatErr.

(** Outcome of a call that may panic (an [unwrap] on [None]). *)
Inductive outcome (A : Type) :=
  | Ret (s : Session) (r : A)
  | Panic.
Arguments Ret {A} s r.
Arguments Panic {A}.

Definition set_dialog_cache (s : Session) (d : Dialog.t) (c : option Cache.t)
  : Session := mkSession (component s) (sample s) d c.

(** [Session::revert]. *)
Definition revert (s : Session) (dialog_pos : nat)
  : outcome (ChatError + unit) :=
  match Nat.compare dialog_pos (Dialog.num_sentences (dialog s)) with
  | Lt =>
      match cache s with
      | None => Panic
      | Some c =>
          let d := Dialog.revert (dialog s) dialog_pos in
          let last_prompt :=
            match Dialog.last_prompt d with Some p => length p | None => 0%nat end in
          let c' :=
            match Cache.revert c (Dialog.num_tokens d) with
            | Some c1 =>
                if Nat.ltb (Cache.get_last_cached_range_len c1) last_prompt
                then let '(toks, p) := Dialog.window d (max_seq_len (component s)) in
                     Cache.reset_with c1 toks p
                else c1
            | None =>
                let '(toks, p) := Dialog.window d (max_seq_len (component s)) in
                Cache.reset_with c toks p
            end in
          Ret (set_dialog_cache s d (Some c')) (inr tt)
      end
  | Eq => Ret s (inr tt)
  | Gt => Ret s (inl ChatErr)
  end.

(** [Session::restore_cache]. *)
Definition restore_cache (s : Session) (c : Cache.t) : Session :=
  let end_ := Dialog.num_tokens (dialog s) in
  let '(c1, d1) :=
    if Nat.ltb end_ (Cache.end_ c) then
      let c1 := Cache.push c (eos_token (component s)) in
      (c1, Dialog.push (dialog s) (Cache.slice_tail c1 end_))
    else (c, dialog s) in
  set_dialog_cache s d1 (Some (Cache.cleanup_before_start c1)).

(** A [BusySession]: the borrowed session and the task handle, reduced
    to the cache the task owns. *)
Record BusySession := mkBusy { session : Session; handle_cache : Cache.t }.

(** [TaskHandle::take]: hand the task's cache back. *)
Definition take (b : BusySession) : Cache.t := handle_cache b.

(** [impl Drop for BusySession]. *)
Definition drop_busy (b : BusySession) : Session :=
  restore_cache (session b) (take b).

(** Two calls in sequence; the first result is discarded. *)
Definition seq2 {A B} (f : Session -> outcome A) (g : Session -> outcome B)
  (s : Session) : outcome B :=
  match f s with Ret s' _ => g s' | Panic => Panic end.

End Session.

(* ================================================================= *)
(** ** Batcher (src/service/src/session/batcher.rs) *)

Module Batcher.

(** [queue: Mutex<(Vec<T>, bool)>]: the pending items and the alive
    flag.  The condition variable only wakes threads; a [deq] whose
    wait condition still holds is blocked. *)
Record t (T : Type) := mk { queue : list T; alive : bool }.
Arguments mk {T} queue alive.
Arguments queue {T} _.
Arguments alive {T} _.

Definition new {T} : t T := mk [] true.

(** [enq]: push only while alive; [notify_one] has no effect on the
    data. *)
Definition enq {T} (b : t T) (v : T) : t T :=
  if alive b then mk (queue b ++ [v]) (alive b) else b.

(** [deq]: [wait_while(|(q, a)| q.is_empty() && *a)] then
    [std::mem::take] of the vector.  [None] is a blocked call. *)
Definition deq {T} (b : t T) : option (list T * t T) :=
  if (bool_decide (queue b = []) && alive b)%bool then None
  else Some (queue b, mk [] (alive b)).

(** [shutdown]: clear the flag and the queue, [notify_all]. *)
Definition shutdown {T} (b : t T) : t T := mk [] false.

Inductive op (T : Type) := Enq (v : T) | Deq | Shutdown.
Arguments Enq {T} v.
Arguments Deq {T}.
Arguments Shutdown {T}.

(** Result of one call: the vector a [deq] returned (or [None] for other
    calls), or [Blocked]. *)
Inductive reply (T : Type) := Done (r : option (list T)) | Blocked.
Arguments Done {T} r.
Arguments Blocked {T}.

Definition step {T} (b : t T) (o : op T) : reply T * t T :=
  match o with
  | Enq v => (Done None, enq b v)
  | Deq => match deq b with
           | Some (v, b') => (Done (Some v), b')
           | None => (Blocked, b)
           end
  | Shutdown => (Done None, shutdown b)
  end.

(** Run a sequence of calls from one thread, collecting the replies; a
    blocked call stops the sequence. *)
Fixpoint run {T} (b : t T) (os : list (op T)) : list (reply T) * t T :=
  match os with
  | [] => ([], b)
  | o :: os' =>
      match step b o with
      | (Blocked, b') => ([Blocked], b')
      | (r, b') => let '(rs, b'') := run b' os' in (r :: rs, b'')
      end
  end.

(** The reply of a call on a dead, empty batcher. *)
Definition dead_reply {T} (o : op T) : reply T :=
  match o with Deq => Done (Some []) | _ => Done None end.

Fixpoint enq_all {T} (b : t T) (vs : list T) : t T :=
  match vs with [] => b | v :: vs' => enq_all (enq b v) vs' end.

(** The vectors the [deq] calls of a sequence of replies returned, in
    order, and the items of the [enq] calls of a sequence of calls. *)
Fixpoint deq_values {T} (rs : list (reply T)) : list T :=
  match rs with
  | [] => []
  | Done (Some v) :: rs' => v ++ deq_values rs'
  | _ :: rs' => deq_values rs'
  end.

Fixpoint enq_values {T} (os : list (op T)) : list T :=
  match os with
  | [] => []
  | Enq v :: os' => v :: enq_values os'
  | _ :: os' => enq_values os'
  end.

End Batcher.

(* ================================================================= *)
(** ** Tensor-parallel forward pass
    (src/models/llama/nvidia-gpu-distributed/src/lib.rs) *)

Module Distributed.

(** Kernel calls issued by one shard, on its stream, in order.  Tensors
    are named after the local variables of [forward], [self_att] and
    [mlp]; the scalar arguments of [mat_mul] are [1.], [0.] or
    [head_div]. *)
Inductive Buf := X | X1 | QKV | Q | K | QAtt | KCat | VCat | Att | X2 | O | GateUp.
Inductive Coef := CZero | COne | CHeadDiv.
Inductive ReduceType := ncclSum | ncclProd | ncclMax | ncclMin | ncclAvg.

Inductive Call :=
  | RmsNorm (dst src : Buf)
  | MatMul (dst : Buf) (beta alpha : Coef)
  | Rope (dst : Buf)
  | Reform (dst : Buf)
  | Softmax (dst : Buf)
  | Mlp (dst : Buf) (alpha : Coef) (residual : bool)
  | AllReduce (buf : Buf) (op : ReduceType).

(** A query, reduced to whether [query.cache(layer)] is [Some]. *)
Record Query := mkQuery { has_cache : bool }.

(** The body of the [izip!] loop of [self_att]: skipped by [continue]
    when the query has no cache. *)
Definition self_att_query (q : Query) : list Call :=
  if has_cache q then
    [Reform QAtt; Reform KCat; Reform VCat;
     MatMul Att CZero CHeadDiv; Softmax Att;
     MatMul X2 CZero COne; Reform O]
  else [].

(** [Transformer::self_att] on shard [i]. *)
Definition self_att (i : nat) (queries : list Query) : list Call :=
  [RmsNorm X1 X; MatMul QKV CZero COne; Rope Q; Rope K]
  ++ concat (map self_att_query queries)
  ++ [MatMul X (if Nat.eqb i 0 then COne else CZero) COne].

(** [Transformer::mlp] on shard [i]. *)
Definition mlp (i : nat) : list Call :=
  [RmsNorm X1 X; Mlp X COne (Nat.eqb i 0)].

(** One iteration of [for layer in 0..nlayers] in the thread of shard
    [i]. *)
Definition layer_calls (i : nat) (queries : list Query) (layer : nat) : list Call :=
  self_att i queries ++ [AllReduce X ncclSum] ++ mlp i ++ [AllReduce X ncclSum].

Definition shard_forward (i nlayers : nat) (queries : list Query) : list Call :=
  concat (map (layer_calls i queries) (seq 0 nlayers)).

(** Calls that write the residual [x] or are collectives. *)
Definition touches_residual (c : Call) : bool :=
  match c with
  | MatMul X _ _ | Mlp X _ _ | RmsNorm X _ | Rope X | Reform X | Softmax X
  | AllReduce _ _ => true
  | _ => false
  end.

(** [forward]: one thread per communicator, shard [i] for the [i]-th. *)
Definition forward (ncomms nlayers : nat) (queries : list Query) : list (list Call) :=
  map (fun i => shard_forward i nlayers queries) (seq 0 ncomms).

(** The collective calls of a stream, in order. *)
Definition is_collective (c : Call) : bool :=
  match c with AllReduce _ _ => true | _ => false end.

Definition collectives (cs : list Call) : list Call := List.filter is_collective cs.

End Distributed.

(* ================================================================= *)
(** ** CPU transformer (src/transformer-cpu/src/lib.rs) *)

Module TransformerCpu.

(** [tensor::DataType]. *)
Inductive DataType :=
  | Bool | I8 | I16 | I32 | I64 | U8 | U16 | U32 | U64 | F16 | BF16 | F32 | F64.

(** A loaded model ([dyn Llama2]), reduced to its data type. *)
Record Llama2 := mkLlama2 { data_type : DataType }.

(** [Memory::cast(model, dt)]: the same parameters converted to [dt]. *)
Definition cast (m : Llama2) (dt : DataType) : Llama2 := mkLlama2 dt.

Record Transformer := mkTransformer { model : Llama2 }.

(** [Transformer::new]. *)
Definition new (m : Llama2) : Transformer :=
  mkTransformer (match data_type m with
                 | BF16 | F32 => cast m F16
                 | _ => m
                 end).

(** The hidden-state and workspace tensors of [update] and the logits
    of [decode], with the data type each is created with. *)
Inductive Alloc := Ax0 | Ax1 | Aqkv | Aq_buf | Aatt_buf | Ax2 | Agate_up | Alogits.

Definition update_allocs (tr : Transformer) : list (Alloc * DataType) :=
  let dt := data_type (model tr) in
  [(Ax0, dt); (Ax1, dt); (Aqkv, dt); (Aq_buf, dt); (Aatt_buf, dt);
   (Ax2, dt); (Agate_up, dt)].

Definition decode_allocs (tr : Transformer) : list (Alloc * DataType) :=
  update_allocs tr ++ [(Alogits, data_type (model tr))].

(** [udim] is [u32]: [as udim] keeps the low 32 bits. *)
Definition as_udim (n : nat) : Z := Z.of_nat n mod 2 ^ 32.

Record Request := mkRequest { tokens : list utok; pos : Z }.

(** [Request::seq_len]: [self.tokens.len() as udim]. *)
Definition seq_len (r : Request) : Z := as_udim (length (tokens r)).

(** The assertion that opens [Transformer::decode],
    [assert!(requests.iter().all(|r| r.seq_len() == 1))], and the batch
    size [requests.len() as udim] computed right after it: [None] is the
    panic of [assert!], [Some batch] the batch size [decode] goes on with
    (into [update], [gather], [rms_norm_inplace] and [mat_mul], which are
    not modelled here). *)
Definition decode_assert (tr : Transformer) (requests : list Request) : option Z :=
  if forallb (fun r => Z.eqb (seq_len r) 1) requests
  then Some (as_udim (length requests))
  else None.

(** [+] on [u32] ([udim], [upos]) with the overflow check of a debug
    build: [None] is the panic. *)
Definition add_u32 (a b : Z) : option Z :=
  if a + b <? 2 ^ 32 then Some (a + b) else None.

(** [Request::att_len]: [self.pos + self.seq_len()]. *)
Definition att_len (r : Request) : option Z := add_u32 (pos r) (seq_len r).

(** The first loop of [update]: [nt += seq_len],
    [max_seq_len = max_seq_len.max(seq_len)],
    [max_att_len = max_att_len.max(att_len)]. *)
Fixpoint update_sizes (rs : list Request) (nt msl mal : Z) : option (Z * Z * Z) :=
  match rs with
  | [] => Some (nt, msl, mal)
  | r :: rs' =>
      let sl := seq_len r in
      match att_len r with
      | None => None
      | Some al =>
          match add_u32 nt sl with
          | None => None
          | Some nt' => update_sizes rs' nt' (Z.max msl sl) (Z.max mal al)
          end
      end
  end.

(** [a..b] on [u32]. *)
Definition range_u32 (a b : Z) : list Z :=
  map (fun i => a + Z.of_nat i) (seq 0 (Z.to_nat (b - a))).

(** The second loop of [update]: [let len = request.tokens.len() as u32;
    pos.extend(request.pos..(request.pos + len))]. *)
Fixpoint update_pos (rs : list Request) : option (list Z) :=
  match rs with
  | [] => Some []
  | r :: rs' =>
      let len := as_udim (length (tokens r)) in
      match add_u32 (pos r) len with
      | None => None
      | Some e =>
          match update_pos rs' with
          | None => None
          | Some p => Some (range_u32 (pos r) e ++ p)
          end
      end
  end.

(** The request bookkeeping of [update] before its first kernel:
    [nt], [max_seq_len], [max_att_len] and the [pos] vector. *)
Definition update_prologue (rs : list Request) : option (Z * Z * Z * list Z) :=
  match update_sizes rs 0 0 0 with
  | None => None
  | Some (nt, msl, mal) =>
      match update_pos rs with
      | None => None
      | Some p => Some (nt, msl, mal, p)
      end
  end.

(** The [req] counter of the per-request loop of each layer: request [r]
    reads rows [slice![from req, take seq_len]] of [q], [k] and [v], then
    [req += seq_len]; the list holds the value of [req] for each request. *)
Fixpoint req_offsets (rs : list Request) (req : Z) : option (list Z) :=
  match rs with
  | [] => Some []
  | r :: rs' =>
      match add_u32 req (seq_len r) with
      | None => None
      | Some req' =>
          match req_offsets rs' req' with
          | None => None
          | Some os => Some (req :: os)
          end
      end
  end.

(** The total of the requests' [seq_len], and the positions [update]
    gives the tokens of one request. *)
Definition sum_seq_len (rs : list Request) : Z := fold_right (fun r s => seq_len r + s) 0 rs.

Definition pos_block (r : Request) : list Z :=
  map (fun t => pos r + Z.of_nat t) (seq 0 (Z.to_nat (seq_len r))).

End TransformerCpu.

(* ================================================================= *)
(** ** MoE top-k (src/models/mixtral/cpu/src/infer.rs) *)

Module TopK.

(** An [f16] is its bit pattern, [0 <= b < 2^16]. *)
Definition f16 := Z.

(** [f16::total_cmp] of the [half] crate:
    [left = bits as i16; left ^= (((left >> 15) as u16) >> 1) as i16;]
    then compare the two [i16]. *)
Definition as_i16 (b : Z) : Z := if 32768 <=? b then b - 65536 else b.

Definition total_key (x : f16) : Z :=
  let left := as_i16 x in
  Z.lxor left (Z.shiftr (Z.land (Z.shiftr left 15) 65535) 1).

Definition total_cmp (x y : f16) : comparison := Z.compare (total_key x) (total_key y).

(** [struct WithIndex { idx: usize, data: f16 }]. *)
Record WithIndex := mkWI { idx : nat; data : f16 }.

(** [impl Ord for WithIndex]: [self.data.total_cmp(&other.data).reverse()]. *)
Definition cmp (a b : WithIndex) : comparison := CompOpp (total_cmp (data a) (data b)).

(** The order [sort_unstable] sorts by: [a] may precede [b]. *)
Definition le_wi (a b : WithIndex) : Prop := cmp a b <> Gt.

(** What the standard library's [sort_unstable] promises: a permutation
    sorted by [Ord]; the order of equal elements is unspecified, so
    [topk] is parameterized by the sorting function. *)
Definition valid_sort (sort : list WithIndex -> list WithIndex) : Prop :=
  forall l, Permutation (sort l) l /\ Sorted le_wi (sort l).

(** [top[top_i].idx as u32]. *)
Definition idx_as_u32 (x : WithIndex) : Z := Z.of_nat (idx x) mod 2 ^ 32.

(** [slice[a..]] and [slice[..n]]: [None] is a panic. *)
Definition slice_from {A} (l : list A) (a : nat) : option (list A) :=
  if Nat.leb a (length l) then Some (drop a l) else None.

Definition slice_to {A} (l : list A) (n : nat) : option (list A) :=
  if Nat.leb n (length l) then Some (take n l) else None.

(** [buf[i] = v]: [None] is a panic (index out of bounds). *)
Definition set_at {A} (l : list A) (i : nat) (v : A) : option (list A) :=
  if Nat.ltb i (length l) then Some (<[i := v]> l) else None.

(** [for top_i in 0..k { weight[base + top_i] = top[top_i].data;
    indices[base + top_i] = top[top_i].idx as u32; }], walking [top]. *)
Fixpoint write_top (base top_i : nat) (top : list WithIndex)
  (w : list f16) (ix : list Z) : option (list f16 * list Z) :=
  match top with
  | [] => Some (w, ix)
  | x :: rest =>
      match set_at w (base + top_i) (data x) with
      | None => None
      | Some w' =>
          match set_at ix (base + top_i) (idx_as_u32 x) with
          | None => None
          | Some ix' => write_top base (S top_i) rest w' ix'
          end
      end
  end.

(** [token_i * dim], a product of two [udim] ([u32]) values, with the
    overflow check of a debug build: [None] is the panic. *)
Definition mul_u32 (a b : nat) : option nat :=
  if Z.of_nat (a * b) <? 2 ^ 32 then Some (a * b)%nat else None.

(** The body of [for token_i in 0..n] for one row:
    [line = &slice[(token_i * dim) as usize..][..dim as usize]], the sorted
    [vec], [top = &vec[..k]] and the writes. The write index
    [(token_i as usize) * k + top_i] is a [usize] that cannot overflow once
    [vec[..k]] has passed: [token_i] and [k <= dim] are below [2^32]. *)
Definition topk_row (sort : list WithIndex -> list WithIndex)
  (slice : list f16) (dim k token_i : nat)
  (w : list f16) (ix : list Z) : option (list f16 * list Z) :=
  match mul_u32 token_i dim with
  | None => None
  | Some off =>
  match slice_from slice off with
  | None => None
  | Some s1 =>
      match slice_to s1 dim with
      | None => None
      | Some line =>
          let vec := sort (imap (fun i d => mkWI i d) line) in
          match slice_to vec k with
          | None => None
          | Some top => write_top (token_i * k) 0 top w ix
          end
      end
  end
  end.

Fixpoint topk_rows (sort : list WithIndex -> list WithIndex)
  (slice : list f16) (dim k : nat) (rows : list nat)
  (w : list f16) (ix : list Z) : option (list f16 * list Z) :=
  match rows with
  | [] => Some (w, ix)
  | token_i :: rows' =>
      match topk_row sort slice dim k token_i w ix with
      | None => None
      | Some (w', ix') => topk_rows sort slice dim k rows' w' ix'
      end
  end.

(** [topk(logits, k, weight, indices)] for a [n x dim] logits tensor with
    data [slice]; the results are the new contents of [weight] and
    [indices]. *)
Definition topk (sort : list WithIndex -> list WithIndex)
  (n dim : nat) (slice : list f16) (k : nat)
  (weight : list f16) (indices : list Z) : option (list f16 * list Z) :=
  topk_rows sort slice dim k (seq 0 n) weight indices.

(** [f16::from_f64] on the values of [test_topk]. *)
Definition h0 : f16 := 0.
Definition h1 : f16 := 15360.  (* 0x3C00 = 1.0 *)
Definition h2 : f16 := 16384.  (* 0x4000 = 2.0 *)
Definition h3 : f16 := 16896.  (* 0x4200 = 3.0 *)
Definition h4 : f16 := 17408.  (* 0x4400 = 4.0 *)

Definition test_logits : list f16 :=
  [h0; h2; h0; h0; h0; h0; h1; h0; h3; h0; h0; h0; h4; h0; h0; h0].

(** An insertion sort by [cmp], one function meeting [valid_sort]. *)
Fixpoint insert_wi (x : WithIndex) (l : list WithIndex) : list WithIndex :=
  match l with
  | [] => [x]
  | y :: l' => if bool_decide (cmp x y = Gt) then y :: insert_wi x l' else x :: l
  end.

Fixpoint isort (l : list WithIndex) : list WithIndex :=
  match l with [] => [] | x :: l' => insert_wi x (isort l') end.

End TopK.

(* ================================================================= *)
(** ** Tokenizer detection (src/service/src/lib.rs) *)

Module Detect.

(** What a name in the model directory refers to. *)
Inductive Entry := Absent | RegularFile | Unreadable | Directory.

Inductive ErrorKind := NotFound | PermissionDenied | Other.

(** [File::open(...).and_then(|f| Mmap::map(&f))]: a directory opens but
    cannot be mapped. *)
Definition mmap (e : Entry) : ErrorKind + unit :=
  match e with
  | Absent => inl NotFound
  | RegularFile => inr tt
  | Unreadable => inl PermissionDenied
  | Directory => inl Other
  end.

(** [Path::is_file]. *)
Definition is_file (e : Entry) : bool :=
  match e with RegularFile | Unreadable => true | _ => false end.

Record ModelDir := mkDir { tokenizer_model : Entry; vocabs_txt : Entry }.

Inductive Tokenizer := Bpe | Lpe.
Inductive Normalizer := BPECommonNormalizer | Identity.

(** [fn tokenizer]: [None] is a panic. *)
Definition tokenizer (dir : ModelDir) : option Tokenizer :=
  match mmap (tokenizer_model dir) with
  | inr _ => Some Bpe
  | inl NotFound =>
      match mmap (vocabs_txt dir) with
      | inr _ => Some Lpe
      | inl NotFound => None
      | inl _ => None
      end
  | inl _ => None
  end.

(** [fn normalizer]: [None] is a panic. *)
Definition normalizer (dir : ModelDir) : option Normalizer :=
  if is_file (tokenizer_model dir) then Some BPECommonNormalizer
  else if is_file (vocabs_txt dir) then Some Identity
  else None.

(** The two calls of [Service::load], tokenizer first. *)
Definition load (dir : ModelDir) : option (Tokenizer * Normalizer) :=
  match tokenizer dir with
  | None => None
  | Some t => match normalizer dir with
              | None => None
              | Some n => Some (t, n)
              end
  end.

End Detect.

(* ================================================================= *)
(** ** Mixtral on the CPU (src/models/mixtral/cpu/src/infer.rs) *)

Module MixtralCpu.
Import TopK.

(** [a / b] on [udim]: [None] is the division-by-zero panic. *)
Definition div_u32 (a b : Z) : option Z := if b =? 0 then None else Some (a / b).

(** [MixtralCPU], reduced to the fields [new_cache] reads. *)
Record MixtralCPU := mkMixtral {
  nlayers : Z; nh : Z; nkvh : Z; max_seq_len : Z; d : Z;
}.

(** A tensor: its shape and its element at each index.  A fresh
    [Tensor::alloc(.., Blob::new)] holds whatever [blob] says. *)
Record Tensor := mkTensor { shape : list Z; at_ : list Z -> f16 }.

(** [CausalLM::new_cache]: shape [[nlayers, 2, nkvh, max_seq_len, d / nh]]. *)
Definition new_cache (m : MixtralCPU) (blob : list Z -> f16) : option Tensor :=
  match div_u32 (d m) (nh m) with
  | None => None
  | Some dh => Some (mkTensor [nlayers m; 2; nkvh m; max_seq_len m; dh] blob)
  end.

(** Whether an index lies in [slice![=>pos]] on the position axis. *)
Definition before_pos (ix : list Z) (pos : Z) : bool :=
  match nth_error ix 3 with Some p => (0 <=? p) && (p <? pos) | None => false end.

(** [CausalLM::duplicate_cache]: [let &[_nlayers, 2, _nkvh, max_seq_len,
    _dh] = cache.shape() else { panic!() }; assert!(pos <= max_seq_len);]
    then a fresh tensor of the same shape, into which the positions
    [0..pos] of [cache] are copied ([reform_to]). *)
Definition duplicate_cache (blob : list Z -> f16) (cache : Tensor) (pos : Z) : option Tensor :=
  match shape cache with
  | [_; two; _; msl; _] =>
      if (two =? 2) && (pos <=? msl)
      then Some (mkTensor (shape cache)
                   (fun ix => if before_pos ix pos then at_ cache ix else blob ix))
      else None
  | _ => None
  end.

(** [SampleMeta { args, num_decode }]. *)
Record SampleMeta := mkSampleMeta { meta_args : Session.SampleArgs; num_decode : nat }.

(** [common_cpu::slice!(logits; voc; [i])], the [i]-th row of width
    [voc]: [logits[i * voc as usize..][..voc as usize]], the [usize]
    product with the overflow check of a debug build; [None] is a
    panic. *)
Definition logits_row (logits : list f16) (voc : Z) (i : nat) : option (list f16) :=
  let w := Z.to_nat voc in
  if Z.of_nat (i * w) <? 2 ^ 64 then
    match slice_from logits (i * w) with
    | Some s1 => slice_to s1 w
    | None => None
    end
  else None.

(** [.enumerate().map(|(i, args)| self.kernels.sample(.., &slice!(logits;
    voc; [i]))).collect()] from slot [i] on: the kernel's sample
    ([kernel args row]) of each slot's row, in order. *)
Fixpoint sample_rows (kernel : Session.SampleArgs -> list f16 -> utok)
  (logits : list f16) (voc : Z) (i : nat) (slots : list Session.SampleArgs)
  : option (list utok) :=
  match slots with
  | [] => Some []
  | a :: rest =>
      match logits_row logits voc i with
      | None => None
      | Some row =>
          match sample_rows kernel logits voc (S i) rest with
          | None => None
          | Some out => Some (kernel a row :: out)
          end
      end
  end.

(** [CausalLM::sample]: [let &[_, voc] = logits.shape() else { panic!() };]
    then the slots [flat_map]ped out of [args] ([meta.args] repeated
    [meta.num_decode] times), each sampled from its row of the logits'
    data [logits] ([reslice(logits.as_slice())]). *)
Definition sample (kernel : Session.SampleArgs -> list f16 -> utok)
  (logits_shape : list Z) (logits : list f16) (args : list SampleMeta) : option (list utok) :=
  match logits_shape with
  | [_; voc] =>
      sample_rows kernel logits voc 0
        (concat (map (fun m => repeat (meta_args m) (num_decode m)) args))
  | _ => None
  end.

(** One [self.kernels.mlp(...)] call of the expert loop of [forward]: the
    row views of [x], [x1] and [gate_up] it works on, the expert
    ([indices[..]]) and the weight [weights[..].to_f32() / sum], kept as
    the weight and the [k] weights its [sum] adds up. *)
Record MlpCall (Row : Type) := mkMlpCall {
  x0_slice : Row; x1_slice : Row; gate_up_slice : Row;
  expert : Z; expert_weight : f16; weight_sum : list f16;
}.
Arguments mkMlpCall {Row}.
Arguments x0_slice {Row}. Arguments x1_slice {Row}. Arguments gate_up_slice {Row}.
Arguments expert {Row}. Arguments expert_weight {Row}. Arguments weight_sum {Row}.

(** [(tok * self.k + k) as usize], computed in [udim] with the overflow
    check of a debug build. *)
Definition moe_index (tok k j : nat) : option nat :=
  if Z.of_nat (tok * k + j) <? 2 ^ 32 then Some (tok * k + j)%nat else None.

(** [weights[i]] / [indices[i]]: [None] is the out-of-bounds panic. *)
Definition at_index {A} (l : list A) (i : option nat) : option A :=
  match i with Some i => l !! i | None => None end.

(** [(0..self.k).map(|k| weights[(tok * self.k + k) as usize]...)]. *)
Fixpoint weights_of (k : nat) (weights : list f16) (tok : nat) (js : list nat)
  : option (list f16) :=
  match js with
  | [] => Some []
  | j :: js' =>
      match at_index weights (moe_index tok k j), weights_of k weights tok js' with
      | Some w, Some ws => Some (w :: ws)
      | _, _ => None
      end
  end.

(** [for k in 0..self.k { let expert = indices[..]; let expert_w =
    weights[..].to_f32() / sum; ... self.kernels.mlp(..) }]. *)
Fixpoint expert_calls {Row} (k : nat) (weights : list f16) (indices : list Z)
  (tok : nat) (x0 x1 gu : Row) (sum : list f16) (js : list nat)
  : option (list (MlpCall Row)) :=
  match js with
  | [] => Some []
  | j :: js' =>
      match at_index indices (moe_index tok k j), at_index weights (moe_index tok k j),
            expert_calls k weights indices tok x0 x1 gu sum js' with
      | Some e, Some w, Some cs => Some (mkMlpCall x0 x1 gu e w sum :: cs)
      | _, _, _ => None
      end
  end.

(** [VecDeque::pop_back]. *)
Definition pop_back {A} (l : list A) : option (list A * A) :=
  match last l with Some x => Some (removelast l, x) | None => None end.

(** [for tok in (0..nt).rev() { .. }]: the [sum], then
    [_gate_up.pop_back().unwrap()], [_x0.pop_back().unwrap()],
    [_x1.pop_back().unwrap()], then the expert loop. *)
Fixpoint moe_tokens {Row} (k : nat) (weights : list f16) (indices : list Z)
  (toks : list nat) (x0s x1s gus : list Row) : option (list (MlpCall Row)) :=
  match toks with
  | [] => Some []
  | tok :: toks' =>
      match weights_of k weights tok (seq 0 k) with
      | None => None
      | Some sum =>
          match pop_back gus, pop_back x0s, pop_back x1s with
          | Some (gus', gu), Some (x0s', x0), Some (x1s', x1) =>
              match expert_calls k weights indices tok x0 x1 gu sum (seq 0 k),
                    moe_tokens k weights indices toks' x0s' x1s' gus' with
              | Some cs, Some rest => Some (cs ++ rest)
              | _, _ => None
              end
          | _, _, _ => None
          end
      end
  end.

(** The expert stage of one layer of [forward]: [x0s], [x1s] and [gus]
    are [x.split(0, &shard)], [x1.split(0, &shard)] and
    [gate_up.split(0, &shard)], one row each. *)
Definition moe_layer {Row} (k nt : nat) (weights : list f16) (indices : list Z)
  (x0s x1s gus : list Row) : option (list (MlpCall Row)) :=
  moe_tokens k weights indices (rev (seq 0 nt)) x0s x1s gus.

End MixtralCpu.

(* ================================================================= *)
(** ** Interactive chat (xtask/src/chat.rs) *)

Module Chat.
Import (notations) Stdlib.Strings.String.

(** Text as its Unicode scalar values. *)
Definition text := list Z.

Definition chars (s : String.string) : text :=
  map (fun a => Z.of_nat (Ascii.nat_of_ascii a)) (String.list_ascii_of_string s).

(** [char::is_whitespace]: the characters of Unicode's [White_Space]. *)
Definition is_whitespace (c : Z) : bool :=
  ((9 <=? c) && (c <=? 13)) || (c =? 32) || (c =? 133) || (c =? 160) ||
  (c =? 5760) || ((8192 <=? c) && (c <=? 8202)) || (c =? 8232) || (c =? 8233) ||
  (c =? 8239) || (c =? 8287) || (c =? 12288).

Fixpoint trim_start (s : text) : text :=
  match s with [] => [] | c :: s' => if is_whitespace c then trim_start s' else s end.

(** [str::trim]. *)
Definition trim (s : text) : text := rev (trim_start (rev (trim_start s))).

(** [str::split_whitespace]: the maximal runs of non-whitespace, [cur]
    holding the current run reversed. *)
Fixpoint split_ws (cur : text) (s : text) : list text :=
  match s with
  | [] => match cur with [] => [] | _ => [rev cur] end
  | c :: s' =>
      if is_whitespace c then
        match cur with [] => split_ws [] s' | _ => rev cur :: split_ws [] s' end
      else split_ws (c :: cur) s'
  end.

Definition split_whitespace (s : text) : list text := split_ws [] s.

(** [usize::MAX] on a 64-bit target. *)
Definition usize_max : Z := 2 ^ 64 - 1.

(** [<usize as FromStr>::from_str]: an optional [+] followed by at least
    one decimal digit, the value at most [usize::MAX]. *)
Fixpoint parse_digits (acc : Z) (s : text) : option Z :=
  match s with
  | [] => Some acc
  | c :: s' =>
      if (48 <=? c) && (c <=? 57) then
        let acc' := acc * 10 + (c - 48) in
        if acc' <=? usize_max then parse_digits acc' s' else None
      else None
  end.

Definition parse_usize (s : text) : option Z :=
  match s with
  | [] => None
  | c :: rest =>
      if c =? 43 then match rest with [] => None | _ => parse_digits 0 rest end
      else parse_digits 0 s
  end.

(** [+= 1] on [usize] with the overflow check of a debug build. *)
Definition incr (n : Z) : option Z := if n <? usize_max then Some (n + 1) else None.

(** What [Chatting] uses of the service, its sessions, the standard
    library's float parsing and [HashMap]'s iteration order. *)
Class ChatServices (Sess : Type) := {
  (** [self.service.launch()] *)
  launch : Sess;
  (** [Session::fork] *)
  fork : Sess -> Sess;
  (** The body of [Chatting::infer] on the session: [extend] with a user
      message, [chat], and the [decode] loop; [None] is a panic. *)
  session_infer : text -> Sess -> option Sess;
  (** [session.sample.temperature = t], [.top_k = k], [.top_p = p] *)
  set_temperature : Z -> Sess -> Sess;
  set_top_k : Z -> Sess -> Sess;
  set_top_p : Z -> Sess -> Sess;
  (** [t.parse::<f32>()], as a bit pattern, and the [parse] of [top_k] *)
  parse_f32 : text -> option Z;
  parse_top_k : text -> option Z;
  (** The key of [self.sessions.iter().next()]. *)
  hash_first : gmap Z Sess -> option Z;
}.

(** [struct Chatting]: the service is in [ChatServices]. *)
Record Chatting (Sess : Type) := mkChatting {
  current : Z;
  next_id : Z;
  sessions : gmap Z Sess;
}.
Arguments mkChatting {Sess}.
Arguments current {Sess}. Arguments next_id {Sess}. Arguments sessions {Sess}.

(** The patterns of [execute_command] on
    [command.split_whitespace().collect::<Vec<_>>()]. *)
Inductive Command :=
  | CList | CCreate | CFork | CForkId (n : text) | CSwitch (n : text)
  | CDrop | CDropId (n : text) | CArgs | CTemperature (t : text)
  | CTopK (k : text) | CTopP (p : text) | CHelp | CExit | CUnknown.

Definition is_word (w : text) (s : String.string) : bool := bool_decide (w = chars s).

Definition classify (ws : list text) : Command :=
  match ws with
  | [a] =>
      if is_word a "/list" then CList
      else if is_word a "/create" then CCreate
      else if is_word a "/fork" then CFork
      else if is_word a "/drop" then CDrop
      else if is_word a "/args" then CArgs
      else if is_word a "/help" then CHelp
      else if is_word a "/exit" then CExit
      else CUnknown
  | [a; n] =>
      if is_word a "/fork" then CForkId n
      else if is_word a "/switch" then CSwitch n
      else if is_word a "/drop" then CDropId n
      else CUnknown
  | [a; b; v] =>
      if is_word a "/args" then
        if is_word b "temperature" then CTemperature v
        else if is_word b "top-k" then CTopK v
        else if is_word b "top-p" then CTopP v
        else CUnknown
      else CUnknown
  | _ => CUnknown
  end.

Section Loop.
Context {Sess : Type} `{ChatServices Sess}.

Definition set_current (c : Chatting Sess) (id : Z) : Chatting Sess :=
  mkChatting id (next_id c) (sessions c).

Definition set_sessions (c : Chatting Sess) (m : gmap Z Sess) : Chatting Sess :=
  mkChatting (current c) (next_id c) m.

(** [while self.sessions.contains_key(&self.next_id) { self.next_id += 1; }].
    Each round passes a different id in use, so there are at most
    [size m] rounds: [fuel] counts them down. *)
Fixpoint skip_used (fuel : nat) (m : gmap Z Sess) (n : Z) : option Z :=
  match fuel with
  | O => Some n
  | Datatypes.S f =>
      match m !! n with
      | Some _ => match incr n with Some n' => skip_used f m n' | None => None end
      | None => Some n
      end
  end.

(** The start of each round of the loop of [Chatting::chat]: when
    [self.current] names no session, switch to the one [iter().next()]
    gives, or, with none left, launch one at [self.current] and move
    [self.next_id] past the ids in use. *)
Definition ensure_current (c : Chatting Sess) : option (Chatting Sess) :=
  match sessions c !! current c with
  | Some _ => Some c
  | None =>
      match hash_first (sessions c) with
      | Some id => Some (set_current c id)
      | None =>
          let m := <[current c := launch]> (sessions c) in
          match skip_used (size m) m (next_id c) with
          | Some n => Some (mkChatting (current c) n m)
          | None => None
          end
      end
  end.

(** [self.current = self.next_id; self.next_id += 1;
    self.sessions.insert(self.current, s);]. *)
Definition add_session (c : Chatting Sess) (s : Sess) : option (Chatting Sess) :=
  match incr (next_id c) with
  | Some n => Some (mkChatting (next_id c) n (<[next_id c := s]> (sessions c)))
  | None => None
  end.

(** [self.session_mut()] (an [unwrap]) updated by [f]. *)
Definition update_current (c : Chatting Sess) (f : Sess -> Sess) : option (Chatting Sess) :=
  match sessions c !! current c with
  | Some s => Some (set_sessions c (<[current c := f s]> (sessions c)))
  | None => None
  end.

Definition continue_with (o : option (Chatting Sess)) : option (bool * Chatting Sess) :=
  match o with Some c' => Some (true, c') | None => None end.

(** [Chatting::execute_command]: [None] is a panic, [false] ends the
    loop. *)
Definition execute_command (c : Chatting Sess) (cmd : Command) : option (bool * Chatting Sess) :=
  let keep := Some (true, c) in
  match cmd with
  | CList | CHelp | CUnknown => keep
  | CCreate => continue_with (add_session c launch)
  | CFork =>
      match sessions c !! current c with
      | Some s => continue_with (add_session c (fork s))
      | None => None
      end
  | CForkId n =>
      match parse_usize n with
      | Some t =>
          match sessions c !! t with
          | Some s => continue_with (add_session c (fork s))
          | None => keep
          end
      | None => keep
      end
  | CSwitch n =>
      match parse_usize n with
      | Some t =>
          if bool_decide (t = current c) then keep
          else match sessions c !! t with
               | Some _ => Some (true, set_current c t)
               | None => keep
               end
      | None => keep
      end
  | CDrop =>
      match sessions c !! current c with
      | Some _ => Some (true, set_sessions c (delete (current c) (sessions c)))
      | None => None
      end
  | CDropId n =>
      match parse_usize n with
      | Some t => Some (true, set_sessions c (delete t (sessions c)))
      | None => keep
      end
  | CArgs =>
      match sessions c !! current c with Some _ => keep | None => None end
  | CTemperature t =>
      match parse_f32 t with
      | Some v => continue_with (update_current c (set_temperature v))
      | None => keep
      end
  | CTopK k =>
      match parse_top_k k with
      | Some v => continue_with (update_current c (set_top_k v))
      | None => keep
      end
  | CTopP p =>
      match parse_f32 p with
      | Some v => continue_with (update_current c (set_top_p v))
      | None => keep
      end
  | CExit => Some (false, c)
  end.

(** [Chatting::infer] on the current session ([session_mut], an
    [unwrap]). *)
Definition chat_infer (c : Chatting Sess) (content : text) : option (Chatting Sess) :=
  match sessions c !! current c with
  | Some s =>
      match session_infer content s with
      | Some s' => Some (set_sessions c (<[current c := s']> (sessions c)))
      | None => None
      end
  | None => None
  end.

(** One round of the loop of [Chatting::chat] on the line read:
    [let input = input.trim();] an empty line does nothing, a line
    starting with ['/'] is a command, any other is a user message. *)
Definition iteration (c : Chatting Sess) (line : text) : option (bool * Chatting Sess) :=
  match ensure_current c with
  | None => None
  | Some c1 =>
      let input := trim line in
      match input with
      | [] => Some (true, c1)
      | ch :: _ =>
          if ch =? 47 then execute_command c1 (classify (split_whitespace input))
          else continue_with (chat_infer c1 input)
      end
  end.

(** The loop over the lines read, until [/exit] breaks it. *)
Fixpoint run (c : Chatting Sess) (lines : list text) : option (Chatting Sess) :=
  match lines with
  | [] => Some c
  | l :: ls =>
      match iteration c l with
      | None => None
      | Some (false, c') => Some c'
      | Some (true, c') => run c' ls
      end
  end.

(** [Chatting { current: 0, next_id: 0, sessions: Default::default() }]. *)
Definition initial : Chatting Sess := mkChatting 0 0 ∅.

(** The bookkeeping invariant of [Chatting]: every session id is below
    [next_id], and [current] is at most [next_id]. *)
Definition chat_inv (c : Chatting Sess) : Prop :=
  (forall id s, sessions c !! id = Some s -> id < next_id c) /\ current c <= next_id c.

End Loop.

(** A service for examples: a session is the number of messages it has
    answered, and [iter().next()] gives the first key of the map's
    list. *)
#[export] Instance counting_services : ChatServices nat := {|
  launch := 0%nat;
  fork := fun s => s;
  session_infer := fun _ s => Some (S s);
  set_temperature := fun _ s => s;
  set_top_k := fun _ s => s;
  set_top_p := fun _ s => s;
  parse_f32 := fun _ => None;
  parse_top_k := fun _ => None;
  hash_first := fun m => fst <$> head (map_to_list m);
|}.

End Chat.

(* ================================================================= *)
(** * Properties *)

(* ----------------------------------------------------------------- *)
(** ** Session *)

Module SessionFacts.
Import Session.

Lemma num_sentences_revert (d : Dialog.t) (n : nat) :
  (n <= Dialog.num_sentences d)%nat ->
  Dialog.num_sentences (Dialog.revert d n) = n.
Proof.
  unfold Dialog.num_sentences, Dialog.revert; simpl; intros H.
  rewrite length_take; lia.
Qed.

Lemma revert_dialog_Lt (s s' : Session) (n : nat) (r : ChatError + unit) :
  (n < Dialog.num_sentences (dialog s))%nat ->
  revert s n = Ret s' r ->
  r = inr tt /\ cache s' <> None /\
  dialog s' = Dialog.revert (dialog s) n /\
  component s' = component s /\ sample s' = sample s.
Proof.
  intros Hlt H. unfold revert in H.
  rewrite (proj2 (Nat.compare_lt_iff _ _) Hlt) in H.
  destruct (cache s) as [c|]; [|discriminate].
  injection H as <- <-. simpl. repeat split; congruence.
Qed.

Lemma slice_tail_push (c : Cache.t) (x : utok) (from : nat) :
  (from < Cache.end_ c)%nat ->
  Cache.slice_tail (Cache.push c x) from = Cache.slice_tail c from ++ [x].
Proof.
  unfold Cache.slice_tail, Cache.push, Cache.extend, Cache.end_; simpl; intros H.
  rewrite drop_app_le; [reflexivity | lia].
Qed.

(** C1: [revert(n)] returns [Err(ChatError)] exactly when
    [n > dialog.num_sentences()], and a call returning the error leaves
    the whole session (dialog, cache, sample settings) as it was. *)
Theorem revert_error_iff_out_of_range (s : Session) (n : nat) :
  ((exists s', revert s n = Ret s' (inl ChatErr)) <->
   (Dialog.num_sentences (dialog s) < n)%nat) /\
  (forall s' e, revert s n = Ret s' (inl e) -> s' = s).
Proof.
  unfold revert; split.
  - split.
    + intros [s' H].
      destruct (Nat.compare_spec n (Dialog.num_sentences (dialog s))) as [Heq|Hlt|Hgt].
      * discriminate.
      * destruct (cache s); discriminate.
      * exact Hgt.
    + intros Hgt. rewrite (proj2 (Nat.compare_gt_iff _ _) Hgt). eauto.
  - intros s' e H.
    destruct (Nat.compare n (Dialog.num_sentences (dialog s))).
    + discriminate.
    + destruct (cache s); discriminate.
    + congruence.
Qed.

(** C5: [revert(n); revert(n)] has the effect and the result of one
    [revert(n)]: after a successful call the dialog has [n] sentences
    (the second call takes the [Equal] branch), after a failed one the
    state is unchanged (the second call fails alike). *)
Theorem revert_twice (s : Session) (n : nat) :
  seq2 (fun s => revert s n) (fun s => revert s n) s = revert s n.
Proof.
  unfold seq2.
  destruct (revert s n) as [s' r|] eqn:H1; [|reflexivity].
  destruct (Nat.compare_spec n (Dialog.num_sentences (dialog s))) as [Heq|Hlt|Hgt].
  - unfold revert in H1 |- *. rewrite (proj2 (Nat.compare_eq_iff _ _) Heq) in H1.
    injection H1 as <- <-. rewrite (proj2 (Nat.compare_eq_iff _ _) Heq). reflexivity.
  - destruct (revert_dialog_Lt s s' n r Hlt H1) as (-> & _ & Hd & _).
    unfold revert.
    rewrite Hd, num_sentences_revert by lia. rewrite Nat.compare_refl. reflexivity.
  - unfold revert in H1 |- *. rewrite (proj2 (Nat.compare_gt_iff _ _) Hgt) in H1.
    injection H1 as <- <-. rewrite (proj2 (Nat.compare_gt_iff _ _) Hgt). reflexivity.
Qed.

(** C2: dropping a [BusySession] gives the cache back to the session.
    When the cache's token list reaches past the dialog's token count
    [D], an EOS is pushed onto the cache and a new sentence, the tokens
    from position [D] on followed by that EOS, is pushed onto the
    dialog; otherwise neither happens.  The sample settings are kept. *)
Theorem drop_busy_session (b : BusySession) :
  let s := session b in
  let c := take b in
  let D := Dialog.num_tokens (dialog s) in
  let eos := eos_token (component s) in
  sample (drop_busy b) = sample s /\
  component (drop_busy b) = component s /\
  ((D < Cache.end_ c)%nat ->
     dialog (drop_busy b) = Dialog.push (dialog s) (Cache.slice_tail c D ++ [eos]) /\
     cache (drop_busy b) = Some (Cache.cleanup_before_start (Cache.push c eos))) /\
  ((Cache.end_ c <= D)%nat ->
     dialog (drop_busy b) = dialog s /\
     cache (drop_busy b) = Some (Cache.cleanup_before_start c)).
Proof.
  cbv zeta. unfold drop_busy, restore_cache.
  destruct (Nat.ltb_spec (Dialog.num_tokens (dialog (session b))) (Cache.end_ (take b)))
    as [Hlt|Hge]; simpl.
  - repeat split; try reflexivity; try lia.
    rewrite slice_tail_push by exact Hlt. reflexivity.
  - repeat split; try reflexivity; lia.
Qed.

End SessionFacts.

(* ----------------------------------------------------------------- *)
(** ** Batcher *)

Module BatcherFacts.
Import Batcher.

Section Queue.
Variable T : Type.

Lemma step_dead (o : op T) :
  step (mk [] false) o = (dead_reply o, mk [] false).
Proof. destruct o; reflexivity. Qed.

(** C3: after [shutdown()], whatever calls follow, every [enq] is
    dropped (the queue stays empty, the batcher dead), every [deq]
    returns an empty vector at once, and no call blocks. *)
Theorem calls_after_shutdown (b : t T) (os : list (op T)) :
  run (shutdown b) os = (map dead_reply os, mk [] false).
Proof.
  unfold shutdown. induction os as [|o os IH]; [reflexivity|].
  simpl. rewrite step_dead. destruct o; simpl; rewrite IH; reflexivity.
Qed.

Lemma enq_all_alive (b : t T) (vs : list T) :
  alive b = true -> enq_all b vs = mk (queue b ++ vs) true.
Proof.
  revert b. induction vs as [|v vs IH]; intros b Ha; simpl.
  - destruct b; simpl in *; subst. rewrite app_nil_r. reflexivity.
  - rewrite IH; unfold enq; rewrite Ha; simpl; [|reflexivity].
    rewrite <- app_assoc. reflexivity.
Qed.

(** C4: [deq()] takes the whole vector: when it returns, it returns the
    items queued, leaves the queue empty and the flag as it was, and the
    vector is empty only if the batcher is dead (it blocks exactly on an
    empty, alive queue).  Items [enq]ueued by one producer on a live
    batcher come out in their order after those already queued. *)
Theorem deq_takes_all :
  (forall b : t T,
     match deq b with
     | Some (v, b') => v = queue b /\ queue b' = [] /\ alive b' = alive b /\
                       (v = [] -> alive b = false)
     | None => queue b = [] /\ alive b = true
     end) /\
  (forall (b : t T) (vs : list T), alive b = true -> vs <> [] ->
     deq (enq_all b vs) = Some (queue b ++ vs, mk [] true)).
Proof.
  split.
  - intros [q a]. unfold deq; simpl.
    destruct (bool_decide_reflect (q = [])) as [Hq|Hq], a; simpl;
      repeat split; auto; intros; congruence.
  - intros b vs Ha Hvs. rewrite enq_all_alive by exact Ha.
    unfold deq; simpl.
    destruct (bool_decide_reflect (queue b ++ vs = [])) as [Hq|Hq].
    + apply app_eq_nil in Hq. tauto.
    + reflexivity.
Qed.

End Queue.

End BatcherFacts.

(* ----------------------------------------------------------------- *)
(** ** Tensor-parallel forward *)

Module DistributedFacts.
Import Distributed.

Lemma self_att_queries_private (queries : list Query) :
  Forall (fun c => touches_residual c = false) (concat (map self_att_query queries)).
Proof.
  induction queries as [|q qs IH]; simpl; [constructor|].
  apply Forall_app; split; [|exact IH].
  unfold self_att_query; destruct (has_cache q); repeat constructor.
Qed.

(** C6: the calls shard [i] issues are, for each layer in turn, the
    attention calls (none of which touches the residual [x] or is a
    collective), the output projection into [x] with [beta = 1] on shard
    0 and [beta = 0] on every other shard, an [all_reduce] SUM on [x],
    the post-attention norm, the MLP into [x] with its residual flag
    true exactly on shard 0, and a second [all_reduce] SUM on [x]. *)
Theorem shard_kernel_schedule (ncomms nlayers : nat) (queries : list Query) (i : nat)
  (Hi : (i < ncomms)%nat) :
  exists att : list Call,
    Forall (fun c => touches_residual c = false) att /\
    nth_error (forward ncomms nlayers queries) i =
    Some (concat (repeat
      (att ++ [MatMul X (if Nat.eqb i 0 then COne else CZero) COne;
               AllReduce X ncclSum;
               RmsNorm X1 X;
               Mlp X COne (Nat.eqb i 0);
               AllReduce X ncclSum]) nlayers)).
Proof.
  exists ([RmsNorm X1 X; MatMul QKV CZero COne; Rope Q; Rope K]
          ++ concat (map self_att_query queries)).
  split.
  - apply Forall_app; split; [repeat constructor|apply self_att_queries_private].
  - unfold forward. rewrite nth_error_map, nth_error_seq.
    destruct (Nat.ltb_spec i ncomms) as [_|]; [|lia]. simpl. f_equal.
    unfold shard_forward, layer_calls, self_att, mlp.
    rewrite map_const, length_seq. f_equal.
    rewrite <- !app_assoc. reflexivity.
Qed.

Lemma shard_kernel_schedule_witness :
  (1 < 2)%nat /\
  exists att : list Call,
    Forall (fun c => touches_residual c = false) att /\
    nth_error (forward 2 3 [mkQuery true; mkQuery false]) 1 =
    Some (concat (repeat
      (att ++ [MatMul X CZero COne; AllReduce X ncclSum; RmsNorm X1 X;
               Mlp X COne false; AllReduce X ncclSum]) 3)).
Proof.
  split; [lia|]. exact (shard_kernel_schedule 2 3 [mkQuery true; mkQuery false] 1 ltac:(lia)).
Defined.

End DistributedFacts.

(* ----------------------------------------------------------------- *)
(** ** CPU transformer *)

Module TransformerCpuFacts.
Import TransformerCpu.

(** C7, as stated, fails: a model declaring [BF16] is cast to [F16] by
    [Transformer::new], so [update] allocates its hidden state in [F16]. *)
Lemma cpu_dtype_not_declared :
  ~ (forall m : Llama2,
       Forall (fun p => snd p = data_type m) (decode_allocs (new m))).
Proof.
  intros H. specialize (H (mkLlama2 BF16)).
  inversion H as [|x l Hx _]. simpl in Hx. discriminate.
Qed.

(** C7 (amended): every hidden-state, workspace and logits tensor of
    [update]/[decode] uses the model's data type after construction:
    [F16] when the model declares [BF16] or [F32], the declared type
    otherwise. *)
Theorem cpu_dtype_after_new (m : Llama2) :
  Forall (fun p => snd p = match data_type m with
                           | BF16 | F32 => F16
                           | d => d
                           end) (decode_allocs (new m)).
Proof.
  destruct m as [dt]. unfold decode_allocs, update_allocs, new.
  destruct dt; simpl; repeat constructor.
Qed.

Lemma seq_len_long_request :
  seq_len (mkRequest (repeat 0 (Z.to_nat (2 ^ 32 + 1))) 0) = 1.
Proof.
  unfold seq_len, as_udim. cbn [tokens].
  rewrite repeat_length, Z2Nat.id by lia. reflexivity.
Qed.

(** [seq_len()] wraps: a request of [2^32 + 1] tokens passes the
    assertion of [decode]. *)
Lemma decode_assert_long_request (tr : Transformer) :
  decode_assert tr [mkRequest (repeat 0 (Z.to_nat (2 ^ 32 + 1))) 0] = Some 1.
Proof. unfold decode_assert. cbn [forallb]. rewrite seq_len_long_request. reflexivity. Qed.


End TransformerCpuFacts.

(* ----------------------------------------------------------------- *)
(** ** Tokenizer detection *)

Module DetectFacts.
Import Detect.

(** C9, as stated, fails: a [tokenizer.model] that exists but cannot be
    read makes [tokenizer] panic instead of picking the byte-pair
    encoder, even with a usable [vocabs.txt]. *)
Lemma unreadable_tokenizer_model_panics :
  tokenizer (mkDir Unreadable RegularFile) = None /\
  load (mkDir Unreadable RegularFile) = None.
Proof. split; reflexivity. Qed.

(** C9 (amended): a readable [tokenizer.model] selects the byte-pair
    tokenizer and the byte-pair common normalizer whatever [vocabs.txt]
    is; with [tokenizer.model] absent, a readable [vocabs.txt] selects the
    linear-piece tokenizer and the identity normalizer; loading panics
    when both are absent, and on any other I/O failure of the file it
    tries (an unreadable file or a directory). *)
Theorem tokenizer_detection (dir : ModelDir) :
  (tokenizer_model dir = RegularFile -> load dir = Some (Bpe, BPECommonNormalizer)) /\
  (tokenizer_model dir = Absent -> vocabs_txt dir = RegularFile ->
     load dir = Some (Lpe, Identity)) /\
  (tokenizer_model dir = Absent -> vocabs_txt dir = Absent -> load dir = None) /\
  (tokenizer_model dir = Unreadable \/ tokenizer_model dir = Directory -> load dir = None) /\
  (tokenizer_model dir = Absent ->
     vocabs_txt dir = Unreadable \/ vocabs_txt dir = Directory -> load dir = None).
Proof.
  destruct dir as [tm v]; simpl.
  unfold load, tokenizer, normalizer; simpl.
  repeat split; intros; repeat match goal with H : _ \/ _ |- _ => destruct H end;
    subst; simpl; try reflexivity; destruct v; reflexivity.
Qed.

End DetectFacts.

(* ----------------------------------------------------------------- *)
(** ** MoE top-k *)

Module TopKFacts.
Import TopK.

Lemma le_wi_key (a b : WithIndex) :
  le_wi a b <-> total_key (data b) <= total_key (data a).
Proof.
  unfold le_wi, cmp, total_cmp.
  destruct (Z.compare_spec (total_key (data a)) (total_key (data b))); simpl;
    split; intros; try discriminate; try lia; congruence.
Qed.

#[local] Instance le_wi_trans : Transitive le_wi.
Proof. intros a b c Hab Hbc. apply le_wi_key in Hab, Hbc. apply le_wi_key. lia. Qed.

Lemma strongly_sorted_lookup (l : list WithIndex) (i j : nat) (x y : WithIndex) :
  StronglySorted le_wi l -> (i < j)%nat -> l !! i = Some x -> l !! j = Some y ->
  le_wi x y.
Proof.
  revert i j. induction l as [|z l IH]; intros i j Hs Hij Hx Hy; [discriminate|].
  inversion Hs as [|? ? Hs' Hall]; subst.
  destruct i as [|i], j as [|j]; simpl in *; try lia.
  - injection Hx as <-. rewrite Forall_forall in Hall. apply Hall.
    eapply list_elem_of_lookup_2; exact Hy.
  - eapply (IH i j); eauto; lia.
Qed.

Lemma strongly_sorted_app (l1 l2 : list WithIndex) (x y : WithIndex) :
  StronglySorted le_wi (l1 ++ l2) -> x ∈ l1 -> y ∈ l2 -> le_wi x y.
Proof.
  induction l1 as [|z l1 IH]; intros Hs Hx Hy; [inversion Hx|].
  simpl in Hs. inversion Hs as [|? ? Hs' Hall]; subst.
  apply elem_of_cons in Hx as [->|Hx].
  - rewrite Forall_forall in Hall. apply Hall, elem_of_app; auto.
  - eauto.
Qed.

Lemma elem_of_enumerate (line : list f16) (x : WithIndex) :
  x ∈ imap (fun i d => mkWI i d) line <-> line !! idx x = Some (data x).
Proof.
  rewrite elem_of_lookup_imap. split.
  - intros (i & y & -> & Hy). exact Hy.
  - intros H. exists (idx x), (data x). destruct x; auto.
Qed.

Lemma NoDup_enumerate (line : list f16) : NoDup (imap (fun i d => mkWI i d) line).
Proof.
  apply NoDup_alt. intros i j x Hi Hj.
  rewrite list_lookup_imap in Hi, Hj.
  destruct (line !! i), (line !! j); simpl in *; try discriminate.
  injection Hi as <-. injection Hj as Hj. congruence.
Qed.

Section Row.
Variable sort : list WithIndex -> list WithIndex.
Hypothesis Hsort : valid_sort sort.
Variable line : list f16.
Variable k : nat.
Hypothesis Hk : (k <= length line)%nat.

Let L := imap (fun i d => mkWI i d) line.
Let Srt := sort L.

Lemma row_length : length (take k Srt) = k.
Proof.
  unfold Srt. rewrite length_take, (Permutation_length (proj1 (Hsort L))).
  unfold L. rewrite length_imap. lia.
Qed.

Lemma row_strongly_sorted : StronglySorted le_wi Srt.
Proof. apply Sorted_StronglySorted; [apply le_wi_trans|apply (proj2 (Hsort L))]. Qed.

Lemma row_elem (x : WithIndex) : x ∈ Srt <-> x ∈ L.
Proof. unfold Srt. rewrite (proj1 (Hsort L)). reflexivity. Qed.

Lemma row_nonincreasing (j : nat) (x y : WithIndex) :
  take k Srt !! j = Some x -> take k Srt !! S j = Some y ->
  total_key (data y) <= total_key (data x).
Proof.
  intros Hx Hy. apply lookup_take_Some in Hx as [Hx _], Hy as [Hy _].
  apply le_wi_key. eapply strongly_sorted_lookup; [apply row_strongly_sorted| |eauto|eauto].
  lia.
Qed.

Lemma row_value (x : WithIndex) :
  x ∈ take k Srt -> line !! idx x = Some (data x).
Proof.
  intros Hx. apply elem_of_enumerate. apply row_elem.
  apply elem_of_take in Hx as (i & Hi & _). eapply list_elem_of_lookup_2; eauto.
Qed.

Lemma row_distinct (j j' : nat) (x y : WithIndex) :
  take k Srt !! j = Some x -> take k Srt !! j' = Some y -> idx x = idx y -> j = j'.
Proof.
  intros Hx Hy He.
  assert (Hxy : x = y).
  { pose proof (row_value x (list_elem_of_lookup_2 _ _ _ Hx)) as Vx.
    pose proof (row_value y (list_elem_of_lookup_2 _ _ _ Hy)) as Vy.
    rewrite He in Vx. rewrite Vx in Vy. injection Vy as Vy.
    destruct x, y; simpl in *; congruence. }
  subst y. apply lookup_take_Some in Hx as [Hx _], Hy as [Hy _].
  eapply NoDup_lookup; [|exact Hx|exact Hy].
  unfold Srt. rewrite (proj1 (Hsort L)).
  apply NoDup_enumerate.
Qed.

Lemma row_largest (c : nat) (v : f16) (x : WithIndex) :
  line !! c = Some v ->
  (forall y, y ∈ take k Srt -> idx y <> c) ->
  x ∈ take k Srt -> total_key v <= total_key (data x).
Proof.
  intros Hc Hnot Hx.
  assert (Hin : mkWI c v ∈ Srt) by (apply row_elem, elem_of_enumerate; exact Hc).
  rewrite <- (take_drop k Srt) in Hin.
  apply elem_of_app in Hin as [Hin|Hin].
  - exfalso. exact (Hnot _ Hin eq_refl).
  - change v with (data (mkWI c v)). apply le_wi_key.
    eapply strongly_sorted_app; [|exact Hx|exact Hin].
    rewrite take_drop. apply row_strongly_sorted.
Qed.

End Row.

Lemma insert_at_length {A} (P Sf : list A) (s0 v : A) :
  <[length P := v]> (P ++ s0 :: Sf) = P ++ v :: Sf.
Proof.
  rewrite insert_app_r_alt by lia. rewrite Nat.sub_diag. reflexivity.
Qed.

Lemma write_top_spec (base t : nat) (top : list WithIndex)
  (Pw Sw : list f16) (Pi Si : list Z) :
  length Pw = (base + t)%nat -> length Pi = (base + t)%nat ->
  (length top <= length Sw)%nat -> (length top <= length Si)%nat ->
  write_top base t top (Pw ++ Sw) (Pi ++ Si) =
  Some (Pw ++ (data <$> top) ++ drop (length top) Sw,
        Pi ++ (idx_as_u32 <$> top) ++ drop (length top) Si).
Proof.
  revert t Pw Sw Pi Si.
  induction top as [|x rest IH]; intros t Pw Sw Pi Si HPw HPi HSw HSi; [reflexivity|].
  destruct Sw as [|s0 Sw]; [simpl in HSw; lia|].
  destruct Si as [|i0 Si]; [simpl in HSi; lia|].
  simpl in HSw, HSi. cbn [write_top]. unfold set_at.
  rewrite !length_app. cbn [length].
  destruct (Nat.ltb_spec (base + t) (length Pw + S (length Sw))) as [_|]; [|lia].
  rewrite <- HPw, insert_at_length.
  destruct (Nat.ltb_spec (length Pw) (length Pi + S (length Si))) as [_|]; [|lia].
  rewrite HPw, <- HPi, insert_at_length.
  replace (Pw ++ data x :: Sw) with ((Pw ++ [data x]) ++ Sw)
    by (rewrite <- app_assoc; reflexivity).
  replace (Pi ++ idx_as_u32 x :: Si) with ((Pi ++ [idx_as_u32 x]) ++ Si)
    by (rewrite <- app_assoc; reflexivity).
  rewrite (IH (S t)); [|rewrite ?length_app; simpl; lia..].
  rewrite <- !app_assoc. reflexivity.
Qed.

Lemma concat_blocks_lookup {A} (bs : list (list A)) (k i j : nat) :
  Forall (fun b => length b = k) bs -> (j < k)%nat ->
  concat bs !! (i * k + j)%nat = match bs !! i with Some b => b !! j | None => None end.
Proof.
  revert i. induction bs as [|b bs IH]; intros i Hall Hj; [reflexivity|].
  apply Forall_cons in Hall as [Hb Hall']. cbn [concat].
  destruct i as [|i]; simpl.
  - apply lookup_app_l. lia.
  - rewrite lookup_app_r by lia.
    replace (k + i * k + j - length b)%nat with (i * k + j)%nat by lia.
    apply IH; auto.
Qed.

Section Rows.
Variable sort : list WithIndex -> list WithIndex.
Hypothesis Hsort : valid_sort sort.
Variables (dim k : nat) (slice : list f16).
Hypothesis Hk : (k <= dim)%nat.

Let top_of (i : nat) : list WithIndex :=
  take k (sort (imap (fun c d => mkWI c d) (take dim (drop (i * dim) slice)))).

Lemma top_of_length (i : nat) :
  ((i + 1) * dim <= length slice)%nat -> length (top_of i) = k.
Proof.
  intros H. unfold top_of. apply row_length; [exact Hsort|].
  rewrite length_take, length_drop. lia.
Qed.

Lemma topk_rows_spec (r m : nat) (Pw Sw : list f16) (Pi Si : list Z) :
  length Pw = (m * k)%nat -> length Pi = (m * k)%nat ->
  (r * k <= length Sw)%nat -> (r * k <= length Si)%nat ->
  ((m + r) * dim <= length slice)%nat ->
  (forall i, (m <= i < m + r)%nat -> Z.of_nat (i * dim) < 2 ^ 32) ->
  topk_rows sort slice dim k (seq m r) (Pw ++ Sw) (Pi ++ Si) =
  Some (Pw ++ concat (map (fun i => data <$> top_of i) (seq m r)) ++ drop (r * k) Sw,
        Pi ++ concat (map (fun i => idx_as_u32 <$> top_of i) (seq m r)) ++ drop (r * k) Si).
Proof.
  revert m Pw Sw Pi Si.
  induction r as [|r IH]; intros m Pw Sw Pi Si HPw HPi HSw HSi Hsl Hov; [reflexivity|].
  cbn [seq topk_rows map concat].
  assert (Ht : length (top_of m) = k) by (apply top_of_length; lia).
  unfold topk_row, mul_u32, slice_from, slice_to.
  destruct (Z.ltb_spec (Z.of_nat (m * dim)) (2 ^ 32)) as [_|Hm];
    [|specialize (Hov m ltac:(lia)); lia].
  destruct (Nat.leb_spec (m * dim) (length slice)) as [_|]; [|lia].
  rewrite length_drop.
  destruct (Nat.leb_spec dim (length slice - m * dim)) as [_|]; [|lia].
  rewrite (Permutation_length (proj1 (Hsort _))), length_imap, length_take, length_drop.
  destruct (Nat.leb_spec k (Nat.min dim (length slice - m * dim))) as [_|]; [|lia].
  fold (top_of m).
  rewrite write_top_spec by lia. rewrite Ht.
  rewrite <- !app_assoc.
  rewrite (app_assoc Pw), (app_assoc Pi).
  rewrite IH; [| rewrite ?length_app, ?length_fmap, ?length_drop; simpl in *; lia ..
               | intros i Hi; apply Hov; lia].
  rewrite !drop_drop, <- !app_assoc. reflexivity.
Qed.

End Rows.

Lemma concat_blocks_length {A} (bs : list (list A)) (k : nat) :
  Forall (fun b => length b = k) bs -> length (concat bs) = (length bs * k)%nat.
Proof.
  induction bs as [|b bs IH]; intros Hall; [reflexivity|].
  apply Forall_cons in Hall as [Hb Hall']. cbn [concat length].
  rewrite length_app, IH by exact Hall'. lia.
Qed.

Lemma lookup_map_stdlib {A B} (f : A -> B) (l : list A) (i : nat) :
  map f l !! i = f <$> l !! i.
Proof. revert i. induction l as [|y l IH]; intros [|i]; simpl; auto. Qed.

Lemma lookup_map_seq {A} (f : nat -> A) (n i : nat) :
  (i < n)%nat -> map f (seq 0 n) !! i = Some (f i).
Proof. intros Hi. rewrite lookup_map_stdlib, lookup_seq_lt by exact Hi. reflexivity. Qed.

Lemma idx_as_u32_small (x : WithIndex) :
  Z.of_nat (idx x) < 2 ^ 32 -> idx_as_u32 x = Z.of_nat (idx x).
Proof. intros H. unfold idx_as_u32. apply Z.mod_small. lia. Qed.

Section Spec.
Variable sort : list WithIndex -> list WithIndex.
Hypothesis Hsort : valid_sort sort.

(** General behaviour of [topk]: on an [n x dim] logits tensor with [k <= dim],
    row offsets [token_i * dim] that fit in [u32] and output buffers of
    [n * k] entries, [topk] does not panic and
    row [i] of its output holds, at columns [0..k], values of row [i] of
    the logits in non-increasing [total_cmp] order, each with the column
    it comes from, no column twice, and no value left out of the
    selection greater than a selected one. *)
Lemma topk_general (n dim k : nat) (slice weight : list f16) (indices : list Z) :
  length slice = (n * dim)%nat -> (k <= dim)%nat -> Z.of_nat dim < 2 ^ 32 ->
  Z.of_nat ((n - 1) * dim) < 2 ^ 32 ->
  length weight = (n * k)%nat -> length indices = (n * k)%nat ->
  exists w ix,
    topk sort n dim slice k weight indices = Some (w, ix) /\
    length w = (n * k)%nat /\ length ix = (n * k)%nat /\
    forall i, (i < n)%nat ->
      let row := take dim (drop (i * dim) slice) in
      (forall j a b, (S j < k)%nat ->
         w !! (i * k + j)%nat = Some a -> w !! (i * k + S j)%nat = Some b ->
         total_key b <= total_key a) /\
      (forall j, (j < k)%nat -> exists c a,
         (c < dim)%nat /\ ix !! (i * k + j)%nat = Some (Z.of_nat c) /\
         w !! (i * k + j)%nat = Some a /\ row !! c = Some a) /\
      (forall j j', (j < k)%nat -> (j' < k)%nat ->
         ix !! (i * k + j)%nat = ix !! (i * k + j')%nat -> j = j') /\
      (forall c v, row !! c = Some v ->
         (forall j, (j < k)%nat -> ix !! (i * k + j)%nat <> Some (Z.of_nat c)) ->
         forall j a, (j < k)%nat -> w !! (i * k + j)%nat = Some a ->
         total_key v <= total_key a).
Proof.
  intros Hsl Hk Hdim Hov Hw Hi.
  set (top := fun i => take k (sort (imap (fun c d => mkWI c d) (take dim (drop (i * dim) slice))))).
  assert (Hlen : forall i, (i < n)%nat -> length (top i) = k).
  { intros i Hin. apply row_length; [exact Hsort|].
    rewrite length_take, length_drop. nia. }
  pose proof (topk_rows_spec sort Hsort dim k slice Hk n 0 [] weight [] indices
                eq_refl eq_refl ltac:(lia) ltac:(lia) ltac:(simpl; lia)) as Hrun.
  specialize (Hrun ltac:(intros i Hi'; assert (i * dim <= (n - 1) * dim)%nat
                           by (apply Nat.mul_le_mono_r; lia); lia)).
  rewrite !drop_ge in Hrun by lia. rewrite !app_nil_r in Hrun. simpl in Hrun.
  exists (concat (map (fun i => data <$> top i) (seq 0 n))),
         (concat (map (fun i => idx_as_u32 <$> top i) (seq 0 n))).
  assert (Hbw : Forall (fun b => length b = k) (map (fun i => data <$> top i) (seq 0 n))).
  { apply Forall_forall. intros b Hb. apply list_elem_of_In, in_map_iff in Hb as (i & <- & Hin).
    apply in_seq in Hin. rewrite length_fmap. apply Hlen. lia. }
  assert (Hbi : Forall (fun b => length b = k) (map (fun i => idx_as_u32 <$> top i) (seq 0 n))).
  { apply Forall_forall. intros b Hb. apply list_elem_of_In, in_map_iff in Hb as (i & <- & Hin).
    apply in_seq in Hin. rewrite length_fmap. apply Hlen. lia. }
  assert (Wl : forall i j, (i < n)%nat -> (j < k)%nat ->
            concat (map (fun i => data <$> top i) (seq 0 n)) !! (i * k + j)%nat
            = data <$> (top i !! j)).
  { intros i j Hin Hj. rewrite concat_blocks_lookup by assumption.
    rewrite lookup_map_seq by exact Hin. apply list_lookup_fmap. }
  assert (Il : forall i j, (i < n)%nat -> (j < k)%nat ->
            concat (map (fun i => idx_as_u32 <$> top i) (seq 0 n)) !! (i * k + j)%nat
            = idx_as_u32 <$> (top i !! j)).
  { intros i j Hin Hj. rewrite concat_blocks_lookup by assumption.
    rewrite lookup_map_seq by exact Hin. apply list_lookup_fmap. }
  split; [exact Hrun|].
  split; [rewrite (concat_blocks_length _ k Hbw), length_map, length_seq; reflexivity|].
  split; [rewrite (concat_blocks_length _ k Hbi), length_map, length_seq; reflexivity|].
  intros i Hin row.
  assert (Hrow : (k <= length row)%nat) by (unfold row; rewrite length_take, length_drop; nia).
  assert (Hsmall : forall x, x ∈ top i -> Z.of_nat (idx x) < 2 ^ 32).
  { intros x Hx. pose proof (row_value sort Hsort row k x Hx) as Hv.
    apply lookup_lt_Some in Hv. unfold row in Hv. rewrite length_take in Hv. lia. }
  split; [|split; [|split]].
  - intros j a b Hj Ha Hb.
    rewrite Wl in Ha, Hb by lia.
    apply fmap_Some in Ha as (x & Hx & ->), Hb as (y & Hy & ->).
    eapply row_nonincreasing; eauto.
  - intros j Hj.
    destruct (lookup_lt_is_Some_2 (top i) j) as [x Hx]; [rewrite Hlen; auto|].
    pose proof (row_value sort Hsort row k x (list_elem_of_lookup_2 _ _ _ Hx)) as Hv.
    exists (idx x), (data x). split; [|split; [|split]].
    + apply lookup_lt_Some in Hv. unfold row in Hv. rewrite length_take in Hv. lia.
    + rewrite Il, Hx by auto. simpl. f_equal.
      apply idx_as_u32_small, Hsmall, (list_elem_of_lookup_2 _ _ _ Hx).
    + rewrite Wl, Hx by auto. reflexivity.
    + exact Hv.
  - intros j j' Hj Hj' E. rewrite !Il in E by auto.
    destruct (lookup_lt_is_Some_2 (top i) j) as [x Hx]; [rewrite Hlen; auto|].
    destruct (lookup_lt_is_Some_2 (top i) j') as [y Hy]; [rewrite Hlen; auto|].
    rewrite Hx, Hy in E. simpl in E. injection E as E.
    rewrite !idx_as_u32_small in E by (apply Hsmall; eapply list_elem_of_lookup_2; eauto).
    eapply (row_distinct sort Hsort row k); eauto. lia.
  - intros c v Hc Hnot j a Hj Ha.
    rewrite Wl in Ha by auto. apply fmap_Some in Ha as (x & Hx & ->).
    eapply (row_largest sort Hsort row k c v x Hc); [|eapply list_elem_of_lookup_2; eauto].
    intros y Hy E. apply list_elem_of_lookup in Hy as [j' Hj'].
    assert (Hj'k : (j' < k)%nat)
      by (rewrite <- (Hlen i Hin); eapply lookup_lt_Some; exact Hj').
    apply (Hnot j' Hj'k). rewrite Il by auto. change (top i !! j' = Some y) in Hj'. rewrite Hj'. simpl. f_equal.
    rewrite idx_as_u32_small, E; [reflexivity|].
    apply Hsmall. eapply list_elem_of_lookup_2; eauto.
Qed.

End Spec.

Lemma insert_wi_perm (x : WithIndex) (l : list WithIndex) :
  Permutation (insert_wi x l) (x :: l).
Proof.
  induction l as [|y l IH]; simpl; [reflexivity|].
  case_bool_decide; [|reflexivity].
  rewrite IH. apply perm_swap.
Qed.

Lemma le_wi_flip (x y : WithIndex) : cmp x y = Gt -> le_wi y x.
Proof.
  unfold le_wi, cmp, total_cmp. intros H.
  destruct (Z.compare_spec (total_key (data x)) (total_key (data y))); simpl in H;
    try discriminate.
  rewrite (proj2 (Z.compare_gt_iff _ _)) by lia. discriminate.
Qed.

Lemma HdRel_insert_wi (x y : WithIndex) (l : list WithIndex) :
  le_wi y x -> HdRel le_wi y l -> HdRel le_wi y (insert_wi x l).
Proof.
  intros Hyx Hl. destruct l as [|z l]; simpl; [constructor; exact Hyx|].
  case_bool_decide; constructor; [inversion Hl; assumption|exact Hyx].
Qed.

Lemma insert_wi_sorted (x : WithIndex) (l : list WithIndex) :
  Sorted le_wi l -> Sorted le_wi (insert_wi x l).
Proof.
  induction l as [|y l IH]; intros Hs; simpl; [repeat constructor|].
  case_bool_decide as Hc.
  - inversion Hs as [|? ? Hs' Hd]; subst. constructor; [auto|].
    apply HdRel_insert_wi; [apply le_wi_flip; exact Hc|exact Hd].
  - constructor; [exact Hs|constructor; exact Hc].
Qed.

Lemma isort_valid : valid_sort isort.
Proof.
  intros l. induction l as [|x l [IHp IHs]]; simpl; [split; constructor|].
  split.
  - rewrite insert_wi_perm, IHp. reflexivity.
  - apply insert_wi_sorted, IHs.
Qed.

Ltac key_false A :=
  let E := fresh "E" in pose proof A as E; vm_compute in E; apply E; reflexivity.

Ltac d_try D c j :=
  key_false (D c _ eq_refl
               ltac:(let jj := fresh "jj" in let Hjj := fresh "Hjj" in
                     intros jj Hjj; destruct jj as [|[|jj]]; [simpl; intros [= ?]; lia|simpl; intros [= ?]; lia|lia])
               j _ ltac:(lia) eq_refl).

Ltac row_case A C D :=
  first
  [ split; reflexivity
  | exfalso; key_false (A 0%nat _ _ ltac:(lia) eq_refl eq_refl)
  | exfalso; let E := fresh "E" in
    pose proof (C 0%nat 1%nat ltac:(lia) ltac:(lia) eq_refl) as E; discriminate E
  | exfalso; first [ d_try D 0%nat 0%nat | d_try D 0%nat 1%nat
                   | d_try D 1%nat 0%nat | d_try D 1%nat 1%nat
                   | d_try D 4%nat 0%nat | d_try D 4%nat 1%nat
                   | d_try D 6%nat 0%nat | d_try D 6%nat 1%nat ] ].

Ltac col_cases c Hc Hr :=
  destruct c as [|[|[|[|[|[|[|[|c]]]]]]]]; [..|lia];
  simpl in Hr; injection Hr as <-.

(** [test_topk] for any sorting function meeting [valid_sort]. *)
Lemma topk_test_any_sort (sort : list WithIndex -> list WithIndex) :
  valid_sort sort ->
  topk sort 2 8 test_logits 2 [0; 0; 0; 0] [0; 0; 0; 0] =
  Some ([h2; h1; h4; h3], [1; 6; 4; 0]).
Proof.
  intros Hsort.
  destruct (topk_general sort Hsort 2 8 2 test_logits [0; 0; 0; 0] [0; 0; 0; 0]
              eq_refl ltac:(lia) ltac:(lia) ltac:(simpl; lia) eq_refl eq_refl)
    as (w & ix & Hrun & Lw & Li & Hrows).
  rewrite Hrun.
  pose proof (Hrows 0%nat ltac:(lia)) as R0. pose proof (Hrows 1%nat ltac:(lia)) as R1.
  cbv zeta in R0, R1. clear Hrows Hrun.
  destruct w as [|w0 [|w1 [|w2 [|w3 [|]]]]]; simpl in Lw; try lia.
  destruct ix as [|i0 [|i1 [|i2 [|i3 [|]]]]]; simpl in Li; try lia.
  destruct R0 as (A0 & B0 & C0 & D0). destruct R1 as (A1 & B1 & C1 & D1).
  destruct (B0 0%nat ltac:(lia)) as (c0 & a0 & Hc0 & Hi0 & Hw0 & Hr0).
  destruct (B0 1%nat ltac:(lia)) as (c1 & a1 & Hc1 & Hi1 & Hw1 & Hr1).
  destruct (B1 0%nat ltac:(lia)) as (c2 & a2 & Hc2 & Hi2 & Hw2 & Hr2).
  destruct (B1 1%nat ltac:(lia)) as (c3 & a3 & Hc3 & Hi3 & Hw3 & Hr3).
  simpl in Hi0, Hi1, Hi2, Hi3, Hw0, Hw1, Hw2, Hw3.
  injection Hi0 as ->. injection Hi1 as ->. injection Hi2 as ->. injection Hi3 as ->.
  injection Hw0 as ->. injection Hw1 as ->. injection Hw2 as ->. injection Hw3 as ->.
  clear B0 B1.
  assert (E0 : c0 = 1%nat /\ c1 = 6%nat).
  { clear A1 C1 D1 Hr2 Hr3.
    col_cases c0 Hc0 Hr0; col_cases c1 Hc1 Hr1; row_case A0 C0 D0. }
  destruct E0 as [-> ->]. simpl in Hr0, Hr1. injection Hr0 as <-. injection Hr1 as <-.
  assert (E1 : c2 = 4%nat /\ c3 = 0%nat).
  { clear A0 C0 D0.
    col_cases c2 Hc2 Hr2; col_cases c3 Hc3 Hr3; row_case A1 C1 D1. }
  destruct E1 as [-> ->]. simpl in Hr2, Hr3. injection Hr2 as <-. injection Hr3 as <-.
  reflexivity.
Qed.

(** C8: for the MoE top-k routine, any sorting function meeting [valid_sort]
    (a permutation sorted by the reversed [total_cmp], as [sort_unstable]
    produces) gives, on the logits rows [0,2,0,0,0,0,1,0] and
    [3,0,0,0,4,0,0,0] with [k = 2], the weights [2,1; 4,3] and the indices
    [1,6; 4,0]; and in general, on an [n x dim] tensor with [k <= dim], a
    [dim] that fits in [u32], a last row offset [(n - 1) * dim] that fits in
    [u32] (the [udim] product [token_i * dim] does not overflow) and output
    buffers of [n * k] entries, [topk]
    does not panic and row [i] of its output holds [k] values of row [i] in
    non-increasing order, each with its column index, no column twice, and
    no value left out greater than a selected one: the [k] largest. *)
Theorem topk_spec (sort : list WithIndex -> list WithIndex) (Hsort : valid_sort sort) :
  topk sort 2 8 test_logits 2 [0; 0; 0; 0] [0; 0; 0; 0] =
    Some ([h2; h1; h4; h3], [1; 6; 4; 0]) /\
  forall (n dim k : nat) (slice weight : list f16) (indices : list Z),
  length slice = (n * dim)%nat -> (k <= dim)%nat -> Z.of_nat dim < 2 ^ 32 ->
  Z.of_nat ((n - 1) * dim) < 2 ^ 32 ->
  length weight = (n * k)%nat -> length indices = (n * k)%nat ->
  exists w ix,
    topk sort n dim slice k weight indices = Some (w, ix) /\
    length w = (n * k)%nat /\ length ix = (n * k)%nat /\
    forall i, (i < n)%nat ->
      let row := take dim (drop (i * dim) slice) in
      (forall j a b, (S j < k)%nat ->
         w !! (i * k + j)%nat = Some a -> w !! (i * k + S j)%nat = Some b ->
         total_key b <= total_key a) /\
      (forall j, (j < k)%nat -> exists c a,
         (c < dim)%nat /\ ix !! (i * k + j)%nat = Some (Z.of_nat c) /\
         w !! (i * k + j)%nat = Some a /\ row !! c = Some a) /\
      (forall j j', (j < k)%nat -> (j' < k)%nat ->
         ix !! (i * k + j)%nat = ix !! (i * k + j')%nat -> j = j') /\
      (forall c v, row !! c = Some v ->
         (forall j, (j < k)%nat -> ix !! (i * k + j)%nat <> Some (Z.of_nat c)) ->
         forall j a, (j < k)%nat -> w !! (i * k + j)%nat = Some a ->
         total_key v <= total_key a).
Proof.
  split.
  - exact (topk_test_any_sort sort Hsort).
  - exact (topk_general sort Hsort).
Qed.

(** The insertion sort [isort] meets [valid_sort], so [topk_spec] applies
    to it. *)
Lemma topk_spec_witness :
  valid_sort isort /\
  topk isort 2 8 test_logits 2 [0; 0; 0; 0] [0; 0; 0; 0] =
    Some ([h2; h1; h4; h3], [1; 6; 4; 0]).
Proof.
  split.
  - exact isort_valid.
  - exact (proj1 (topk_spec isort isort_valid)).
Defined.

End TopKFacts.

(* ================================================================= *)
(** * Further properties of the code *)

(* ----------------------------------------------------------------- *)
(** ** Batcher: items are neither lost nor duplicated *)

Module BatcherMore.
Import Batcher.

Section Conservation.
Variable T : Type.

(** While no [shutdown] intervenes, the items the [deq] calls of one
    producer-consumer thread return, followed by what is left in the
    queue, are the items queued before followed by those its [enq]
    calls pushed, in order, up to the call that blocked, if any; the
    batcher stays alive. *)
Theorem run_conserves_items (b : t T) (os : list (op T)) :
  alive b = true ->
  Forall (fun o => o <> Shutdown) os ->
  deq_values (fst (run b os)) ++ queue (snd (run b os)) =
    queue b ++ enq_values (firstn (length (fst (run b os))) os) /\
  alive (snd (run b os)) = true.
Proof.
  revert b. induction os as [|o os IH]; intros b Ha Hos.
  - simpl. rewrite app_nil_r. auto.
  - apply Forall_cons in Hos as [Ho Hos].
    destruct o as [v| |]; [| |congruence].
    + destruct b as [q a]; simpl in Ha; subst a. simpl. unfold enq; simpl.
      specialize (IH (mk (q ++ [v]) true) eq_refl Hos).
      destruct (run (mk (q ++ [v]) true) os) as [rs b''] eqn:E.
      simpl in *. destruct IH as [IH1 IH2].
      rewrite IH1, <- app_assoc. auto.
    + destruct b as [q a]; simpl in Ha; subst a. simpl. unfold deq; simpl.
      destruct (decide (q = [])) as [->|Hq].
      * rewrite bool_decide_true by reflexivity. simpl. auto.
      * rewrite bool_decide_false by exact Hq. simpl.
        specialize (IH (mk [] true) eq_refl Hos).
        destruct (run (mk [] true) os) as [rs b''] eqn:E. simpl in *.
        destruct IH as [IH1 IH2]. rewrite <- app_assoc, IH1. auto.
Qed.

End Conservation.

Lemma run_conserves_items_witness :
  alive (mk [1; 2] true) = true /\
  Forall (fun o => o <> Shutdown) [Enq 3; Deq; Deq; Enq 4] /\
  deq_values (fst (run (mk [1; 2] true) [Enq 3; Deq; Deq; Enq 4])) ++
    queue (snd (run (mk [1; 2] true) [Enq 3; Deq; Deq; Enq 4])) =
    [1; 2] ++ enq_values (firstn (length (fst (run (mk [1; 2] true) [Enq 3; Deq; Deq; Enq 4])))
                                  [Enq 3; Deq; Deq; Enq 4]) /\
  alive (snd (run (mk [1; 2] true) [Enq 3; Deq; Deq; Enq 4])) = true.
Proof.
  assert (Hf : Forall (fun o : op Z => o <> Shutdown) [Enq 3; Deq; Deq; Enq 4])
    by (repeat constructor; discriminate).
  split; [reflexivity|]. split; [exact Hf|].
  exact (run_conserves_items Z (mk [1; 2] true) _ eq_refl Hf).
Defined.

End BatcherMore.

(* ----------------------------------------------------------------- *)
(** ** Tensor-parallel forward: the shards' collectives match *)

Module DistributedMore.
Import Distributed.

Lemma collectives_app (l1 l2 : list Call) :
  collectives (l1 ++ l2) = collectives l1 ++ collectives l2.
Proof. unfold collectives. apply List.filter_app. Qed.

Lemma collectives_self_att_query (q : Query) : collectives (self_att_query q) = [].
Proof. unfold self_att_query. destruct (has_cache q); reflexivity. Qed.

Lemma collectives_layer (i : nat) (queries : list Query) (layer : nat) :
  collectives (layer_calls i queries layer) = [AllReduce X ncclSum; AllReduce X ncclSum].
Proof.
  unfold layer_calls, self_att, mlp. rewrite !collectives_app.
  assert (Hq : collectives (concat (map self_att_query queries)) = []).
  { induction queries as [|q qs IH]; [reflexivity|].
    simpl. rewrite collectives_app, collectives_self_att_query, IH. reflexivity. }
  rewrite Hq. reflexivity.
Qed.

(** Every shard's stream carries the same collectives, in the same
    order: [2 * nlayers] [all_reduce] SUM calls on [x], whatever the
    shard and the queries.  So the collectives of the
    communicators pair up one to one. *)
Theorem shard_collectives (ncomms nlayers : nat) (queries : list Query)
  (i : nat) (l : list Call) :
  nth_error (forward ncomms nlayers queries) i = Some l ->
  collectives l = repeat (AllReduce X ncclSum) (2 * nlayers).
Proof.
  unfold forward. rewrite nth_error_map, nth_error_seq.
  destruct (Nat.ltb i ncomms); [|discriminate]. simpl. intros [= <-].
  unfold shard_forward.
  assert (Hs : forall s n, collectives (concat (map (layer_calls i queries) (seq s n))) =
                           repeat (AllReduce X ncclSum) (2 * n)).
  { intros s n. revert s. induction n as [|n IH]; intros s; [reflexivity|].
    cbn [seq map concat]. rewrite collectives_app, collectives_layer, IH.
    replace (2 * S n)%nat with (S (S (2 * n))) by lia. reflexivity. }
  apply Hs.
Qed.

Lemma shard_collectives_witness :
  nth_error (forward 3 2 [mkQuery true; mkQuery false]) 2 =
    Some (shard_forward 2 2 [mkQuery true; mkQuery false]) /\
  collectives (shard_forward 2 2 [mkQuery true; mkQuery false]) =
    repeat (AllReduce X ncclSum) (2 * 2).
Proof.
  split; [reflexivity|]. exact (shard_collectives 3 2 _ 2 _ eq_refl).
Defined.

End DistributedMore.

(* ----------------------------------------------------------------- *)
(** ** CPU transformer: the request layout of [update] *)

Module TransformerCpuMore.
Import TransformerCpu.

Lemma seq_len_range (r : Request) : 0 <= seq_len r < 2 ^ 32.
Proof. unfold seq_len, as_udim. apply Z.mod_pos_bound. lia. Qed.

Lemma add_u32_Some (a b c : Z) : add_u32 a b = Some c -> c = a + b /\ a + b < 2 ^ 32.
Proof. unfold add_u32. destruct (Z.ltb_spec (a + b) (2 ^ 32)); intros [=]; lia. Qed.

Lemma sum_seq_len_nonneg (rs : list Request) : 0 <= sum_seq_len rs.
Proof.
  induction rs as [|r rs IH]; simpl; [lia|]. pose proof (seq_len_range r). lia.
Qed.

Lemma update_sizes_spec (rs : list Request) (a b c nt msl mal : Z) :
  0 <= a ->
  update_sizes rs a b c = Some (nt, msl, mal) ->
  exists offs, req_offsets rs a = Some offs /\
    nt = a + sum_seq_len rs /\ b <= msl /\ c <= mal /\
    forall i r o, rs !! i = Some r -> offs !! i = Some o ->
      o = a + sum_seq_len (take i rs) /\
      o + seq_len r <= nt /\ seq_len r <= msl /\ pos r + seq_len r <= mal.
Proof.
  revert a b c. induction rs as [|r rs IH]; intros a b c Ha H.
  - injection H as <- <- <-. exists []. split; [reflexivity|].
    split; [simpl; lia|]. split; [lia|]. split; [lia|].
    intros i r' o Hr. discriminate.
  - simpl in H. destruct (att_len r) as [al|] eqn:Hal; [|discriminate].
    destruct (add_u32 a (seq_len r)) as [nt'|] eqn:Hnt; [|discriminate].
    apply add_u32_Some in Hnt as [-> Hnt].
    unfold att_len in Hal. apply add_u32_Some in Hal as [-> Hal].
    pose proof (seq_len_range r) as Hr.
    assert (Ha' : 0 <= a + seq_len r) by lia.
    destruct (IH _ _ _ Ha' H) as (offs & Ho & Hnt' & Hm & Hma & Hall).
    assert (Hadd : add_u32 a (seq_len r) = Some (a + seq_len r)).
    { unfold add_u32. destruct (Z.ltb_spec (a + seq_len r) (2 ^ 32)); [reflexivity|lia]. }
    exists (a :: offs). cbn [req_offsets]. rewrite Hadd, Ho. split; [reflexivity|].
    simpl.
    split; [lia|]. split; [lia|]. split; [lia|].
    intros [|i] r' o Hr' Hoi; simpl in Hr', Hoi.
    + injection Hr' as <-. injection Hoi as <-.
      pose proof (sum_seq_len_nonneg rs). simpl. lia.
    + destruct (Hall i r' o Hr' Hoi) as (-> & H1 & H2 & H3). simpl. lia.
Qed.

Lemma update_pos_spec (rs : list Request) (p : list Z) :
  update_pos rs = Some p ->
  p = concat (map pos_block rs).
Proof.
  revert p. induction rs as [|r rs IH]; intros p H; simpl in H.
  - injection H as <-. reflexivity.
  - destruct (add_u32 (pos r) (as_udim (length (tokens r)))) as [e|] eqn:He; [|discriminate].
    destruct (update_pos rs) as [p'|]; [|discriminate]. injection H as <-.
    apply add_u32_Some in He as [-> _].
    simpl. rewrite <- (IH p' eq_refl). unfold range_u32, pos_block, seq_len.
    f_equal. f_equal. f_equal. lia.
Qed.

Lemma concat_lookup_offset {A} (bs : list (list A)) (i j : nat) (b : list A) :
  bs !! i = Some b -> (j < length b)%nat ->
  concat bs !! (sum_list (map length (take i bs)) + j)%nat = b !! j.
Proof.
  revert i. induction bs as [|b' bs IH]; intros i Hb Hj; [discriminate|].
  destruct i as [|i]; simpl in *.
  - injection Hb as ->. apply lookup_app_l. exact Hj.
  - rewrite lookup_app_r by lia.
    replace (length b' + sum_list (map length (take i bs)) + j - length b')%nat
      with (sum_list (map length (take i bs)) + j)%nat by lia.
    apply IH; assumption.
Qed.

Lemma length_concat_blocks {A} (bs : list (list A)) :
  length (concat bs) = sum_list (map length bs).
Proof. induction bs as [|b bs IH]; simpl; [reflexivity|]. rewrite length_app, IH. reflexivity. Qed.

Lemma sum_block_lengths (rs : list Request) :
  sum_list (map length (map pos_block rs)) =
  Z.to_nat (sum_seq_len rs).
Proof.
  induction rs as [|r rs IH]; [reflexivity|]. simpl.
  unfold pos_block at 1. rewrite length_map, length_seq, IH.
  pose proof (seq_len_range r). pose proof (sum_seq_len_nonneg rs). lia.
Qed.

(** The bookkeeping of [update] lays the requests out one after the
    other: when it does not panic, request [i] owns the rows
    [req .. req + seq_len] that the [req] counter of the layer loop
    gives it, all below [nt]; row [req + t] of the [pos] tensor (of
    exactly [nt] entries, the length [Tensor::new(U32, &[nt], ..)]
    takes) is [pos + t]; and [max_seq_len] and [max_att_len], which size
    [q_buf] and [att_buf], bound every request's [seq_len] and
    [att_len]. *)
Theorem update_request_layout (rs : list Request) (nt msl mal : Z) (p : list Z) :
  update_prologue rs = Some (nt, msl, mal, p) ->
  exists offs, req_offsets rs 0 = Some offs /\
    length p = Z.to_nat nt /\
    forall i r o, rs !! i = Some r -> offs !! i = Some o ->
      o + seq_len r <= nt /\ seq_len r <= msl /\ pos r + seq_len r <= mal /\
      forall t, 0 <= t < seq_len r -> p !! Z.to_nat (o + t) = Some (pos r + t).
Proof.
  unfold update_prologue. intros H.
  destruct (update_sizes rs 0 0 0) as [[[nt' msl'] mal']|] eqn:Hs; [|discriminate].
  destruct (update_pos rs) as [p'|] eqn:Hp; [|discriminate].
  injection H as <- <- <- <-.
  destruct (update_sizes_spec rs 0 0 0 _ _ _ ltac:(lia) Hs)
    as (offs & Ho & Hnt & _ & _ & Hall).
  apply update_pos_spec in Hp. subst p'.
  exists offs. split; [exact Ho|]. split.
  { rewrite length_concat_blocks, sum_block_lengths. f_equal. lia. }
  intros i r o Hr Hoi.
  destruct (Hall i r o Hr Hoi) as (Hoeq & H1 & H2 & H3).
  split; [lia|]. split; [lia|]. split; [lia|].
  intros t Ht.
  assert (Hb : map pos_block rs !! i = Some (pos_block r))
    by (rewrite list_lookup_fmap, Hr; reflexivity).
  pose proof (sum_seq_len_nonneg (take i rs)).
  replace (Z.to_nat (o + t))
    with (sum_list (map length (take i (map pos_block rs))) + Z.to_nat t)%nat.
  - rewrite (concat_lookup_offset _ _ _ _ Hb) by (unfold pos_block; rewrite length_map, length_seq; lia).
    unfold pos_block. rewrite list_lookup_fmap, lookup_seq_lt by lia. simpl. f_equal. lia.
  - rewrite firstn_map, sum_block_lengths. lia.
Qed.

Lemma update_request_layout_witness :
  update_prologue [mkRequest [7; 8; 9] 4; mkRequest [5] 0; mkRequest [1; 2] 10] = Some (6, 3, 12, [4; 5; 6; 0; 10; 11]) /\
  exists offs, req_offsets [mkRequest [7; 8; 9] 4; mkRequest [5] 0; mkRequest [1; 2] 10] 0 = Some offs /\
    length [4; 5; 6; 0; 10; 11] = Z.to_nat 6 /\
    forall i r o, [mkRequest [7; 8; 9] 4; mkRequest [5] 0; mkRequest [1; 2] 10] !! i = Some r -> offs !! i = Some o ->
      o + seq_len r <= 6 /\ seq_len r <= 3 /\ pos r + seq_len r <= 12 /\
      forall t, 0 <= t < seq_len r ->
        [4; 5; 6; 0; 10; 11] !! Z.to_nat (o + t) = Some (pos r + t).
Proof.
  split; [reflexivity|].
  exact (update_request_layout [mkRequest [7; 8; 9] 4; mkRequest [5] 0; mkRequest [1; 2] 10] 6 3 12 [4; 5; 6; 0; 10; 11] eq_refl).
Defined.

End TransformerCpuMore.

(* ----------------------------------------------------------------- *)
(** ** MoE top-k: when it panics, and what it leaves alone *)

Module TopKMore.
Import TopK.

Lemma set_at_Some {A} (l l' : list A) (i : nat) (v : A) :
  set_at l i v = Some l' -> (i < length l)%nat /\ l' = <[i := v]> l.
Proof. unfold set_at. destruct (Nat.ltb_spec i (length l)); intros [=]; auto. Qed.

Lemma write_top_Some (base t : nat) (top : list WithIndex)
  (w w' : list f16) (ix ix' : list Z) :
  write_top base t top w ix = Some (w', ix') ->
  length w' = length w /\ length ix' = length ix /\
  (top <> [] -> (base + t + length top <= length w)%nat /\
                (base + t + length top <= length ix)%nat).
Proof.
  revert t w ix. induction top as [|x rest IH]; intros t w ix H; simpl in H.
  - injection H as <- <-. repeat split; congruence.
  - destruct (set_at w (base + t) (data x)) as [w1|] eqn:H1; [|discriminate].
    destruct (set_at ix (base + t) (idx_as_u32 x)) as [ix1|] eqn:H2; [|discriminate].
    apply set_at_Some in H1 as [Hlt1 ->], H2 as [Hlt2 ->].
    destruct (IH _ _ _ H) as (E1 & E2 & Hr). rewrite length_insert in E1, E2.
    split; [exact E1|]. split; [exact E2|]. intros _. simpl.
    destruct rest as [|y rest'].
    + simpl. lia.
    + destruct (Hr ltac:(discriminate)) as [Hr1 Hr2]. rewrite length_insert in Hr1, Hr2.
      simpl in Hr1, Hr2 |- *. unfold f16 in *. lia.
Qed.

Section Panics.
Variable sort : list WithIndex -> list WithIndex.
Hypothesis Hsort : valid_sort sort.
Variables (dim k : nat) (slice : list f16).

Lemma topk_row_Some (i : nat) (w w' : list f16) (ix ix' : list Z) :
  topk_row sort slice dim k i w ix = Some (w', ix') ->
  length w' = length w /\ length ix' = length ix /\
  Z.of_nat (i * dim) < 2 ^ 32 /\
  (S i * dim <= length slice)%nat /\ (k <= dim)%nat /\
  ((0 < k)%nat -> (S i * k <= length w)%nat /\ (S i * k <= length ix)%nat).
Proof.
  unfold topk_row, mul_u32, slice_from, slice_to. intros H.
  destruct (Z.ltb_spec (Z.of_nat (i * dim)) (2 ^ 32)) as [H0|]; [|discriminate].
  destruct (Nat.leb_spec (i * dim) (length slice)) as [H1|]; [|discriminate].
  rewrite length_drop in H.
  destruct (Nat.leb_spec dim (length slice - i * dim)) as [H2|]; [|discriminate].
  rewrite (Permutation_length (proj1 (Hsort _))), length_imap, length_take, length_drop in H.
  destruct (Nat.leb_spec k (Nat.min dim (length slice - i * dim))) as [H3|]; [|discriminate].
  apply write_top_Some in H as (E1 & E2 & Hw).
  split; [exact E1|]. split; [exact E2|]. split; [exact H0|]. split; [lia|]. split; [lia|].
  intros Hk.
  assert (Hne : take k (sort (imap (fun c d => mkWI c d) (take dim (drop (i * dim) slice)))) <> []).
  { intros E. apply (f_equal length) in E.
    rewrite length_take, (Permutation_length (proj1 (Hsort _))), length_imap,
      length_take, length_drop in E.
    simpl in E. lia. }
  destruct (Hw Hne) as [Hw1 Hw2].
  rewrite length_take, (Permutation_length (proj1 (Hsort _))), length_imap,
    length_take, length_drop in Hw1, Hw2.
  lia.
Qed.

Lemma topk_rows_Some (r m : nat) (w w' : list f16) (ix ix' : list Z) :
  topk_rows sort slice dim k (seq m r) w ix = Some (w', ix') ->
  length w' = length w /\ length ix' = length ix /\
  forall i, (m <= i < m + r)%nat ->
    Z.of_nat (i * dim) < 2 ^ 32 /\
    (S i * dim <= length slice)%nat /\ (k <= dim)%nat /\
    ((0 < k)%nat -> (S i * k <= length w)%nat /\ (S i * k <= length ix)%nat).
Proof.
  revert m w ix. induction r as [|r IH]; intros m w ix H; simpl in H.
  - injection H as <- <-. split; [reflexivity|]. split; [reflexivity|]. intros; lia.
  - destruct (topk_row sort slice dim k m w ix) as [[w1 ix1]|] eqn:Hrow; [|discriminate].
    apply topk_row_Some in Hrow as (E1 & E2 & R).
    destruct (IH _ _ _ H) as (F1 & F2 & Rs).
    split; [lia|]. split; [lia|]. intros i Hi.
    destruct (Nat.eq_dec i m) as [->|Hne]; [exact R|].
    rewrite <- E1, <- E2. apply Rs. lia.
Qed.

(** [topk] on an [n x dim] tensor with [n > 0] panics exactly when
    [k > dim] ([vec[..k]] is out of range), when [token_i * dim]
    overflows [u32] for the last row [token_i = n - 1] (the debug build's
    overflow check), when the logits hold fewer than [n * dim] values
    ([slice[token_i * dim..][..dim]]), or when [weight] or [indices] has
    fewer than [n * k] entries. *)
Theorem topk_panics_iff (n : nat) (weight : list f16) (indices : list Z) :
  (0 < n)%nat ->
  topk sort n dim slice k weight indices = None <->
  ((dim < k)%nat \/ 2 ^ 32 <= Z.of_nat ((n - 1) * dim) \/ (length slice < n * dim)%nat \/
   (length weight < n * k)%nat \/ (length indices < n * k)%nat).
Proof.
  intros Hn. unfold topk. split.
  - intros H.
    destruct (Nat.lt_ge_cases dim k) as [|Hk]; [left; assumption|].
    destruct (Z.le_gt_cases (2 ^ 32) (Z.of_nat ((n - 1) * dim))) as [|Hov];
      [right; left; assumption|].
    destruct (Nat.lt_ge_cases (length slice) (n * dim)) as [|Hs]; [do 2 right; left; assumption|].
    destruct (Nat.lt_ge_cases (length weight) (n * k)) as [|Hw]; [do 3 right; left; assumption|].
    destruct (Nat.lt_ge_cases (length indices) (n * k)) as [|Hi]; [do 4 right; assumption|].
    exfalso.
    pose proof (TopKFacts.topk_rows_spec sort Hsort dim k slice Hk n 0 [] weight [] indices
                  eq_refl eq_refl Hw Hi ltac:(simpl; lia)) as Hrun.
    specialize (Hrun ltac:(intros i Hi'; assert (i * dim <= (n - 1) * dim)%nat
                             by (apply Nat.mul_le_mono_r; lia); lia)).
    simpl in Hrun. rewrite H in Hrun. discriminate.
  - intros Hc. destruct (topk_rows sort slice dim k (seq 0 n) weight indices)
      as [[w' ix']|] eqn:H; [|reflexivity].
    exfalso. apply topk_rows_Some in H as (_ & _ & R).
    destruct (R (n - 1)%nat ltac:(lia)) as (R0 & R1 & R2 & R3).
    replace (S (n - 1)) with n in R1, R3 by lia.
    destruct (Nat.eq_dec k 0%nat) as [->|Hk0]; [lia|].
    destruct (R3 ltac:(lia)). lia.
Qed.

(** [topk] writes only the first [n * k] entries of [weight] and
    [indices]: buffers longer than that keep the rest as they were, and
    no buffer changes length. *)
Theorem topk_frame (n : nat) (weight : list f16) (indices : list Z) (w : list f16) (ix : list Z) :
  topk sort n dim slice k weight indices = Some (w, ix) ->
  length w = length weight /\ length ix = length indices /\
  drop (n * k) w = drop (n * k) weight /\ drop (n * k) ix = drop (n * k) indices.
Proof.
  intros H. unfold topk in H.
  pose proof (topk_rows_Some n 0 _ _ _ _ H) as (E1 & E2 & R).
  split; [exact E1|]. split; [exact E2|].
  destruct n as [|n'].
  - simpl in H. injection H as <- <-. auto.
  - destruct (R n' ltac:(lia)) as (R0 & R1 & Hk & R3).
    assert (Hw : (S n' * k <= length weight)%nat /\ (S n' * k <= length indices)%nat).
    { destruct (Nat.eq_dec k 0%nat) as [->|Hk0]; [lia|]. apply R3. lia. }
    pose proof (TopKFacts.topk_rows_spec sort Hsort dim k slice Hk (S n') 0 [] weight [] indices
                  eq_refl eq_refl (proj1 Hw) (proj2 Hw) ltac:(simpl; lia)
                  (fun i Hi => proj1 (R i Hi))) as Hrun.
    rewrite !app_nil_l in Hrun. rewrite H in Hrun. injection Hrun as -> ->.
    assert (Hlen : forall f : WithIndex -> Z,
      length (concat (map (fun i => f <$> take k (sort (imap (fun c d => mkWI c d)
                (take dim (drop (i * dim) slice))))) (seq 0 (S n')))) = (S n' * k)%nat).
    { intros f. rewrite (TopKFacts.concat_blocks_length _ k), length_map, length_seq; [reflexivity|].
      apply Forall_forall. intros b Hb.
      apply list_elem_of_In, in_map_iff in Hb as (i & <- & Hin). apply in_seq in Hin.
      rewrite length_fmap, length_take, (Permutation_length (proj1 (Hsort _))), length_imap,
        length_take, length_drop.
      destruct (R i ltac:(lia)) as (_ & Ri & _ & _). lia. }
    split.
    + rewrite drop_app_length'; [reflexivity|]. symmetry. apply (Hlen data).
    + rewrite drop_app_length'; [reflexivity|]. symmetry. apply (Hlen idx_as_u32).
Qed.

End Panics.

Lemma topk_panics_iff_witness :
  (0 < 2)%nat /\
  (topk isort 2 3 [1; 2; 3; 4; 5; 6] 2 [0; 0; 0] [0; 0; 0; 0] = None <->
   ((3 < 2)%nat \/ 2 ^ 32 <= Z.of_nat ((2 - 1) * 3) \/ (length [1; 2; 3; 4; 5; 6] < 2 * 3)%nat \/
    (length [0; 0; 0] < 2 * 2)%nat \/ (length [0; 0; 0; 0] < 2 * 2)%nat)).
Proof.
  split; [lia|].
  exact (topk_panics_iff isort TopKFacts.isort_valid 3 2 [1; 2; 3; 4; 5; 6] 2
           [0; 0; 0] [0; 0; 0; 0] ltac:(lia)).
Defined.

Lemma topk_frame_witness :
  valid_sort isort /\
  topk isort 1 2 [h1; h2] 1 [7; 8; 9] [7; 8; 9] = Some ([h2; 8; 9], [1; 8; 9]) /\
  length [h2; 8; 9] = length [7; 8; 9] /\ length [1; 8; 9] = length [7; 8; 9] /\
  drop (1 * 1) [h2; 8; 9] = drop (1 * 1) [7; 8; 9] /\
  drop (1 * 1) [1; 8; 9] = drop (1 * 1) [7; 8; 9].
Proof.
  split; [exact TopKFacts.isort_valid|]. split; [vm_compute; reflexivity|].
  exact (topk_frame isort TopKFacts.isort_valid 2 1 [h1; h2] 1 [7; 8; 9] [7; 8; 9]
           [h2; 8; 9] [1; 8; 9] ltac:(vm_compute; reflexivity)).
Defined.

End TopKMore.

(* ----------------------------------------------------------------- *)
(** ** Mixtral on the CPU: caches, sampling and the expert loop *)

Module MixtralCpuMore.
Import TopK MixtralCpu.

Lemma before_pos_mono (ix : list Z) (q p : Z) :
  q <= p -> before_pos ix q = true -> before_pos ix p = true.
Proof.
  unfold before_pos. intros Hqp. destruct (nth_error ix 3) as [x|]; [|discriminate].
  intros H. apply andb_true_iff in H as [H1 H2]. apply Z.ltb_lt in H2.
  rewrite H1. simpl. apply Z.ltb_lt. lia.
Qed.

(** Duplicating a duplicate: the copy of [c] made at [p] can itself be
    duplicated at [q] exactly when [c] can, and for [q <= p] the result is
    the same tensor as duplicating [c] at [q] directly, entry by entry:
    the copy holds the cache's entries at the positions [0..q] the second
    duplication reads. *)
Theorem duplicate_cache_twice (blob1 blob2 : list Z -> f16) (c c1 : Tensor) (p q : Z) :
  duplicate_cache blob1 c p = Some c1 ->
  (duplicate_cache blob2 c1 q = None <-> duplicate_cache blob2 c q = None) /\
  (q <= p -> forall c2 c2', duplicate_cache blob2 c1 q = Some c2 ->
     duplicate_cache blob2 c q = Some c2' ->
     shape c2 = shape c2' /\ forall ix, at_ c2 ix = at_ c2' ix).
Proof.
  unfold duplicate_cache. destruct c as [sh a]. cbn [shape at_].
  destruct sh as [|l [|two [|h [|msl [|dh [|x rest]]]]]]; try discriminate.
  destruct ((two =? 2) && (p <=? msl))%bool eqn:Ec; [|discriminate].
  intros [= <-]. cbn [shape at_]. split.
  - destruct ((two =? 2) && (q <=? msl))%bool; split; intros E; discriminate || reflexivity.
  - intros Hqp c2 c2'.
    destruct ((two =? 2) && (q <=? msl))%bool; [|discriminate].
    intros [= <-] [= <-]. cbn [shape at_]. split; [reflexivity|].
    intros ix. destruct (before_pos ix q) eqn:Eq; [|reflexivity].
    rewrite (before_pos_mono ix q p Hqp Eq). reflexivity.
Qed.

(** A cache made by [new_cache] can be duplicated at every position up
    to the model's [max_seq_len] and at no other; [new_cache] itself
    panics only when [nh = 0] ([d / nh]). *)
Theorem duplicate_new_cache (m : MixtralCPU) (blob blob' : list Z -> f16) (pos : Z) :
  (new_cache m blob = None <-> nh m = 0) /\
  (forall c, new_cache m blob = Some c ->
     duplicate_cache blob' c pos = None <-> max_seq_len m < pos).
Proof.
  unfold new_cache, div_u32. split.
  - destruct (Z.eqb_spec (nh m) 0); split; congruence.
  - intros c H. destruct (Z.eqb (nh m) 0); [discriminate|].
    injection H as <-. unfold duplicate_cache; simpl.
    destruct (Z.leb_spec pos (max_seq_len m)); simpl; split; intros; try congruence; lia.
Qed.

Lemma length_concat_blocks' {A} (bs : list (list A)) :
  length (concat bs) = sum_list (map length bs).
Proof. induction bs as [|b bs IH]; simpl; [reflexivity|]. rewrite length_app, IH. reflexivity. Qed.

Lemma lookup_repeat_lt {A} (x : A) (n i : nat) : (i < n)%nat -> repeat x n !! i = Some x.
Proof. revert i. induction n as [|n IH]; intros [|i] Hi; simpl; try lia; auto. apply IH. lia. Qed.

Lemma logits_row_spec (logits : list f16) (voc : Z) (i : nat) :
  Z.of_nat (length logits) < 2 ^ 64 ->
  logits_row logits voc i =
    if Nat.leb (i * Z.to_nat voc + Z.to_nat voc) (length logits)
    then Some (take (Z.to_nat voc) (drop (i * Z.to_nat voc) logits)) else None.
Proof.
  intros Hl. unfold logits_row, slice_from, slice_to. set (w := Z.to_nat voc).
  destruct (Nat.leb_spec (i * w + w) (length logits)) as [H|H].
  - destruct (Z.ltb_spec (Z.of_nat (i * w)) (2 ^ 64)) as [_|]; [|lia].
    destruct (Nat.leb_spec (i * w) (length logits)) as [_|]; [|lia].
    rewrite length_drop.
    destruct (Nat.leb_spec w (length logits - i * w)) as [_|]; [reflexivity|lia].
  - destruct (Z.ltb_spec (Z.of_nat (i * w)) (2 ^ 64)) as [_|]; [|reflexivity].
    destruct (Nat.leb_spec (i * w) (length logits)) as [H1|]; [|reflexivity].
    rewrite length_drop.
    destruct (Nat.leb_spec w (length logits - i * w)) as [H2|]; [lia|reflexivity].
Qed.

Lemma sample_rows_spec (kernel : Session.SampleArgs -> list f16 -> utok)
  (logits : list f16) (voc : Z) (slots : list Session.SampleArgs) (i : nat) :
  Z.of_nat (length logits) < 2 ^ 64 ->
  (sample_rows kernel logits voc i slots = None <->
   slots <> [] /\ (length logits < (i + length slots) * Z.to_nat voc)%nat) /\
  (forall out, sample_rows kernel logits voc i slots = Some out ->
     length out = length slots /\
     forall j a, slots !! j = Some a ->
       out !! j = Some (kernel a (take (Z.to_nat voc) (drop ((i + j) * Z.to_nat voc) logits)))).
Proof.
  intros Hl. revert i. induction slots as [|a rest IH]; intros i.
  - split; [split; [discriminate|intros [E _]; congruence]|].
    intros out [= <-]. split; [reflexivity|]. intros j a' Hj. rewrite lookup_nil in Hj. discriminate.
  - cbn [sample_rows length]. rewrite logits_row_spec by exact Hl.
    set (w := Z.to_nat voc) in *.
    destruct (Nat.leb_spec (i * w + w) (length logits)) as [Hrow|Hrow].
    + destruct (IH (S i)) as [HN HS].
      destruct (sample_rows kernel logits voc (S i) rest) as [out'|] eqn:Er.
      * split.
        -- split; [discriminate|]. intros [_ Hlt]. exfalso.
           destruct rest as [|b rest'].
           ++ simpl in Hlt. nia.
           ++ assert (Hn : ~ (b :: rest' <> [] /\
                              (length logits < (S i + length (b :: rest')) * w)%nat))
                by (rewrite <- HN; discriminate).
              apply Hn. split; [discriminate|].
              replace (S i + length (b :: rest'))%nat with (i + S (length (b :: rest')))%nat
                by lia. exact Hlt.
        -- intros out [= <-]. destruct (HS out' eq_refl) as [Hlen Hat].
           split; [simpl; rewrite Hlen; reflexivity|].
           intros [|j] a' Hj; simpl in Hj |- *.
           ++ injection Hj as <-. rewrite Nat.add_0_r. reflexivity.
           ++ rewrite (Hat j a' Hj). replace (S i + j)%nat with (i + S j)%nat by lia.
              reflexivity.
      * split.
        -- split; [|intros _; reflexivity]. intros _. split; [discriminate|].
           destruct (proj1 HN eq_refl) as [_ Hlt].
           replace (i + S (length rest))%nat with (S i + length rest)%nat by lia. exact Hlt.
        -- intros out E. discriminate.
    + split.
      * split; [|intros _; reflexivity]. intros _. split; [discriminate|]. nia.
      * intros out E. discriminate.
Qed.

(** [sample] panics exactly when the logits are not a matrix or their
    data holds fewer rows of width [voc] than there are decoded sequences
    ([slice!(logits; voc; [i])] out of range); the data is a Rust slice,
    so it has fewer than [2^64] elements.  Otherwise it returns one token
    per decoded sequence, and the [t]-th token of the [j]-th
    [SampleMeta], at position [o + t] where [o] counts the sequences of
    the metas before it, is sampled with that meta's arguments from row
    [o + t] of the logits. *)
Theorem sample_layout (kernel : Session.SampleArgs -> list f16 -> utok)
  (logits_shape : list Z) (logits : list f16) (args : list SampleMeta) :
  Z.of_nat (length logits) < 2 ^ 64 ->
  (sample kernel logits_shape logits args = None <->
   length logits_shape <> 2%nat \/
   (length logits < sum_list (map num_decode args) * Z.to_nat (nth 1 logits_shape 0%Z))%nat) /\
  (forall out, sample kernel logits_shape logits args = Some out ->
     length out = sum_list (map num_decode args) /\
     forall j m t, args !! j = Some m -> (t < num_decode m)%nat ->
       let o := sum_list (map num_decode (take j args)) in
       let w := Z.to_nat (nth 1 logits_shape 0) in
       out !! (o + t)%nat = Some (kernel (meta_args m) (take w (drop ((o + t) * w) logits)))).
Proof.
  intros Hl. unfold sample.
  destruct logits_shape as [|a [|voc [|x rest]]];
    try (split; [split; [intros _; left; simpl; lia|intros _; reflexivity]
                |intros out E; discriminate]).
  cbn [nth].
  set (bs := map (fun m => repeat (meta_args m) (num_decode m)) args).
  assert (Hlen : map length bs = map num_decode args).
  { unfold bs. rewrite map_map. apply map_ext. intros m. apply repeat_length. }
  assert (Hsl : length (concat bs) = sum_list (map num_decode args))
    by (rewrite length_concat_blocks', Hlen; reflexivity).
  destruct (sample_rows_spec kernel logits voc (concat bs) 0 Hl) as [HN HS].
  split.
  - rewrite HN, Hsl. split.
    + intros [_ H]. right. exact H.
    + intros [H|H]; [simpl in H; lia|]. split; [|exact H].
      intros E. rewrite E in Hsl. simpl in Hsl. rewrite <- Hsl in H. lia.
  - intros out Hout. destruct (HS out Hout) as [Hol Hat].
    split; [rewrite Hol; exact Hsl|].
    intros j m t Hj Ht. cbv zeta. set (o := sum_list (map num_decode (take j args))).
    assert (Hb : bs !! j = Some (repeat (meta_args m) (num_decode m)))
      by (unfold bs; rewrite TopKFacts.lookup_map_stdlib, Hj; reflexivity).
    assert (Ho : o = sum_list (map length (take j bs)))
      by (unfold o, bs; rewrite firstn_map, map_map; f_equal; apply map_ext;
          intros; symmetry; apply repeat_length).
    apply Hat.
    rewrite Ho, (TransformerCpuMore.concat_lookup_offset _ _ _ _ Hb)
      by (rewrite repeat_length; exact Ht).
    apply lookup_repeat_lt. exact Ht.
Qed.

Lemma pop_back_snoc {A} (l : list A) (x : A) : pop_back (l ++ [x]) = Some (l, x).
Proof. unfold pop_back. rewrite last_snoc, removelast_last. reflexivity. Qed.

Lemma pop_back_nil {A} : pop_back (@nil A) = None.
Proof. reflexivity. Qed.

Lemma snoc_of_length {A} (l : list A) (n : nat) :
  length l = S n -> exists l' x, l = l' ++ [x] /\ length l' = n.
Proof.
  intros H. destruct (exists_last (l := l)) as (l' & x & ->).
  - intros ->. discriminate.
  - exists l', x. split; [reflexivity|]. rewrite length_app in H. simpl in H. lia.
Qed.

Section Experts.
Context {Row : Type}.
Variables (k : nat) (weights : list f16) (indices : list Z).

(** The calls [forward] makes for token [tok] and its rows. *)
Let calls_for (p : nat * (Row * (Row * Row))) : list (MlpCall Row) :=
  let '(tok, (x0, (x1, gu))) := p in
  map (fun j => mkMlpCall x0 x1 gu (nth (tok * k + j) indices 0) (nth (tok * k + j) weights 0)
                  (map (fun j' => nth (tok * k + j') weights 0) (seq 0 k)))
      (seq 0 k).

Lemma moe_index_ok (tok j : nat) :
  (j < k)%nat -> Z.of_nat (S tok * k) <= 2 ^ 32 -> moe_index tok k j = Some (tok * k + j)%nat.
Proof.
  intros Hj Hb. unfold moe_index.
  destruct (Z.ltb_spec (Z.of_nat (tok * k + j)) (2 ^ 32)); [reflexivity|nia].
Qed.

Lemma nth_lookup_lt {A} (l : list A) (i : nat) (d : A) :
  (i < length l)%nat -> l !! i = Some (nth i l d).
Proof.
  intros Hi. destruct (lookup_lt_is_Some_2 l i Hi) as [x Hx].
  rewrite Hx. f_equal. symmetry. apply nth_lookup_Some. exact Hx.
Qed.

Lemma weights_of_ok (tok : nat) (js : list nat) :
  Forall (fun j => j < k)%nat js ->
  (S tok * k <= length weights)%nat -> Z.of_nat (S tok * k) <= 2 ^ 32 ->
  weights_of k weights tok js = Some (map (fun j => nth (tok * k + j) weights 0) js).
Proof.
  intros Hjs Hw Hb. induction Hjs as [|j js Hj Hjs IH]; [reflexivity|].
  simpl. rewrite moe_index_ok by assumption. simpl.
  rewrite (nth_lookup_lt weights _ 0) by nia. rewrite IH. reflexivity.
Qed.

Lemma expert_calls_ok (tok : nat) (x0 x1 gu : Row) (sum : list f16) (js : list nat) :
  Forall (fun j => j < k)%nat js ->
  (S tok * k <= length weights)%nat -> (S tok * k <= length indices)%nat ->
  Z.of_nat (S tok * k) <= 2 ^ 32 ->
  expert_calls k weights indices tok x0 x1 gu sum js =
  Some (map (fun j => mkMlpCall x0 x1 gu (nth (tok * k + j) indices 0)
                                 (nth (tok * k + j) weights 0) sum) js).
Proof.
  intros Hjs Hw Hi Hb. induction Hjs as [|j js Hj Hjs IH]; [reflexivity|].
  simpl. rewrite moe_index_ok by assumption. simpl.
  rewrite (nth_lookup_lt indices _ 0), (nth_lookup_lt weights _ 0) by nia.
  rewrite IH. reflexivity.
Qed.

Lemma all_below_k : Forall (fun j => j < k)%nat (seq 0 k).
Proof. apply Forall_forall. intros j Hj. apply list_elem_of_In, in_seq in Hj. lia. Qed.

(** The expert loop of one layer of [forward]: with [nt] rows in each
    split and [nt * k] routing weights and indices, it does not panic,
    and it takes the tokens from the last to the first, pairing token
    [tok] with row [tok] of [x], [x1] and [gate_up] ([pop_back] walks
    the rows from the end as [(0..nt).rev()] walks the tokens); for each
    it makes [k] MLP calls in turn, the [j]-th with expert
    [indices[tok * k + j]] and weight [weights[tok * k + j]], normalized
    by the sum of the token's own [k] weights. *)
Theorem moe_layer_order (nt : nat) (x0s x1s gus : list Row) :
  length x0s = nt -> length x1s = nt -> length gus = nt ->
  (nt * k <= length weights)%nat -> (nt * k <= length indices)%nat ->
  Z.of_nat (nt * k) <= 2 ^ 32 ->
  moe_layer k nt weights indices x0s x1s gus =
  Some (concat (map calls_for (rev (zip (seq 0 nt) (zip x0s (zip x1s gus)))))).
Proof.
  unfold moe_layer. revert x0s x1s gus.
  induction nt as [|n IH]; intros x0s x1s gus H0 H1 H2 Hw Hi Hb.
  - destruct x0s, x1s, gus; try discriminate. reflexivity.
  - destruct (snoc_of_length x0s n H0) as (x0s' & x0 & -> & H0').
    destruct (snoc_of_length x1s n H1) as (x1s' & x1 & -> & H1').
    destruct (snoc_of_length gus n H2) as (gus' & gu & -> & H2').
    rewrite seq_S, rev_app_distr. simpl.
    rewrite weights_of_ok by (try apply all_below_k; lia).
    rewrite !pop_back_snoc.
    rewrite expert_calls_ok by (try apply all_below_k; lia).
    rewrite IH by (try assumption; nia).
    rewrite !zip_with_app by (rewrite ?length_zip_with, ?length_seq; lia).
    simpl. rewrite rev_app_distr. reflexivity.
Qed.

Lemma pop_back_length {A} (l l' : list A) (x : A) :
  pop_back l = Some (l', x) -> length l' = (length l - 1)%nat /\ (0 < length l)%nat.
Proof.
  unfold pop_back. destruct l as [|y l0]; [discriminate|].
  destruct (exists_last (l := y :: l0)) as (l'' & a & E); [discriminate|].
  rewrite E, last_snoc, removelast_last. intros [= <- <-].
  rewrite length_app. simpl. lia.
Qed.

Lemma moe_tokens_short (toks : list nat) (x0s x1s gus : list Row) :
  (length x0s < length toks \/ length x1s < length toks \/ length gus < length toks)%nat ->
  moe_tokens k weights indices toks x0s x1s gus = None.
Proof.
  revert x0s x1s gus.
  induction toks as [|tok toks IH]; intros x0s x1s gus H; simpl in H; [lia|].
  simpl. destruct (weights_of k weights tok (seq 0 k)) as [sum|]; [|reflexivity].
  destruct (pop_back gus) as [[gus' gu]|] eqn:Eg; [|reflexivity].
  destruct (pop_back x0s) as [[x0s' x0]|] eqn:E0; [|reflexivity].
  destruct (pop_back x1s) as [[x1s' x1]|] eqn:E1; [|reflexivity].
  apply pop_back_length in Eg as [Eg Eg'], E0 as [E0 E0'], E1 as [E1 E1'].
  destruct (expert_calls k weights indices tok x0 x1 gu sum (seq 0 k)); [|reflexivity].
  rewrite IH by lia. reflexivity.
Qed.

Lemma moe_tokens_long (n : nat) (x0s x1s gus : list Row) :
  (n <= length x0s)%nat -> (n <= length x1s)%nat -> (n <= length gus)%nat ->
  (n * k <= length weights)%nat -> (n * k <= length indices)%nat ->
  Z.of_nat (n * k) <= 2 ^ 32 ->
  is_Some (moe_tokens k weights indices (rev (seq 0 n)) x0s x1s gus).
Proof.
  revert x0s x1s gus.
  induction n as [|n IH]; intros x0s x1s gus H0 H1 H2 Hw Hi Hb; [eexists; reflexivity|].
  destruct (exists_last (l := x0s)) as (x0s' & x0 & ->); [intros ->; simpl in H0; lia|].
  destruct (exists_last (l := x1s)) as (x1s' & x1 & ->); [intros ->; simpl in H1; lia|].
  destruct (exists_last (l := gus)) as (gus' & gu & ->); [intros ->; simpl in H2; lia|].
  rewrite length_app in H0, H1, H2. simpl in H0, H1, H2.
  rewrite seq_S, rev_app_distr. simpl.
  rewrite weights_of_ok by (try apply all_below_k; lia).
  rewrite !pop_back_snoc.
  rewrite expert_calls_ok by (try apply all_below_k; lia).
  destruct (IH x0s' x1s' gus') as [r Hr]; [lia | lia | lia | nia | nia | nia |].
  rewrite Hr. eexists; reflexivity.
Qed.

(** When the routing buffers hold [nt * k] weights and indices and
    [nt * k] fits in [u32], the expert loop panics exactly when one of
    the splits of [x], [x1] and [gate_up] has fewer than [nt] rows. *)
Theorem moe_layer_panics_iff (nt : nat) (x0s x1s gus : list Row) :
  (nt * k <= length weights)%nat -> (nt * k <= length indices)%nat ->
  Z.of_nat (nt * k) <= 2 ^ 32 ->
  moe_layer k nt weights indices x0s x1s gus = None <->
  (length x0s < nt \/ length x1s < nt \/ length gus < nt)%nat.
Proof.
  intros Hw Hi Hb. unfold moe_layer. split.
  - intros H.
    destruct (Nat.lt_ge_cases (length x0s) nt) as [|H0]; [left; assumption|].
    destruct (Nat.lt_ge_cases (length x1s) nt) as [|H1]; [right; left; assumption|].
    destruct (Nat.lt_ge_cases (length gus) nt) as [|H2]; [right; right; assumption|].
    destruct (moe_tokens_long nt x0s x1s gus H0 H1 H2 Hw Hi Hb) as [r Hr].
    congruence.
  - intros H. apply moe_tokens_short. rewrite length_rev, length_seq. exact H.
Qed.

End Experts.

Lemma moe_layer_order_witness :
  length [10; 11] = 2%nat /\ length [20; 21] = 2%nat /\ length [30; 31] = 2%nat /\
  (2 * 2 <= length [h1; h3; h2; h2])%nat /\ (2 * 2 <= length [5; 1; 0; 7])%nat /\
  Z.of_nat (2 * 2) <= 2 ^ 32 /\
  moe_layer 2 2 [h1; h3; h2; h2] [5; 1; 0; 7] [10; 11] [20; 21] [30; 31] =
  Some [mkMlpCall 11 21 31 0 h2 [h2; h2]; mkMlpCall 11 21 31 7 h2 [h2; h2];
        mkMlpCall 10 20 30 5 h1 [h1; h3]; mkMlpCall 10 20 30 1 h3 [h1; h3]].
Proof.
  split; [reflexivity|]. split; [reflexivity|]. split; [reflexivity|].
  split; [simpl; lia|]. split; [simpl; lia|]. split; [lia|].
  exact (moe_layer_order 2 [h1; h3; h2; h2] [5; 1; 0; 7] 2 [10; 11] [20; 21] [30; 31]
           eq_refl eq_refl eq_refl ltac:(simpl; lia) ltac:(simpl; lia) ltac:(lia)).
Defined.

Lemma moe_layer_panics_iff_witness :
  (2 * 1 <= length [h1; h2])%nat /\ (2 * 1 <= length [0; 1])%nat /\
  Z.of_nat (2 * 1) <= 2 ^ 32 /\
  @moe_layer Z 1 2 [h1; h2] [0; 1] [10] [20; 21] [30; 31] = None /\
  (@moe_layer Z 1 2 [h1; h2] [0; 1] [10] [20; 21] [30; 31] = None <->
   (length [10] < 2 \/ length [20; 21] < 2 \/ length [30; 31] < 2)%nat).
Proof.
  assert (Hw : (2 * 1 <= length [h1; h2])%nat) by (simpl; lia).
  assert (Hi : (2 * 1 <= length [0; 1])%nat) by (simpl; lia).
  assert (Hb : Z.of_nat (2 * 1) <= 2 ^ 32) by lia.
  split; [exact Hw|]. split; [exact Hi|]. split; [exact Hb|].
  split; [vm_compute; reflexivity|].
  exact (moe_layer_panics_iff 1 [h1; h2] [0; 1] 2 [10] [20; 21] [30; 31] Hw Hi Hb).
Defined.

Lemma duplicate_cache_twice_witness :
  duplicate_cache (fun _ => 0) (mkTensor [1; 2; 1; 4; 1] (fun _ => 7)) 3 =
    Some (mkTensor [1; 2; 1; 4; 1] (fun ix => if before_pos ix 3 then 7 else 0)) /\
  (duplicate_cache (fun _ => 1)
     (mkTensor [1; 2; 1; 4; 1] (fun ix => if before_pos ix 3 then 7 else 0)) 2 = None <->
   duplicate_cache (fun _ => 1) (mkTensor [1; 2; 1; 4; 1] (fun _ => 7)) 2 = None) /\
  (2 <= 3 -> forall c2 c2',
     duplicate_cache (fun _ => 1)
       (mkTensor [1; 2; 1; 4; 1] (fun ix => if before_pos ix 3 then 7 else 0)) 2 = Some c2 ->
     duplicate_cache (fun _ => 1) (mkTensor [1; 2; 1; 4; 1] (fun _ => 7)) 2 = Some c2' ->
     shape c2 = shape c2' /\ forall ix, at_ c2 ix = at_ c2' ix).
Proof.
  assert (H : duplicate_cache (fun _ => 0) (mkTensor [1; 2; 1; 4; 1] (fun _ => 7)) 3 =
                Some (mkTensor [1; 2; 1; 4; 1] (fun ix => if before_pos ix 3 then 7 else 0)))
    by reflexivity.
  split; [exact H|].
  exact (duplicate_cache_twice (fun _ => 0) (fun _ => 1) _ _ 3 2 H).
Defined.

Lemma sample_layout_witness :
  Z.of_nat (length [h1; h2; h3; h4; h0]) < 2 ^ 64 /\
  sample (fun _ row => hd 0 row) [1; 5] [h1; h2; h3; h4; h0]
    [mkSampleMeta (Session.mkSample 1 1 1) 3] = None /\
  (sample (fun _ row => hd 0 row) [1; 5] [h1; h2; h3; h4; h0]
     [mkSampleMeta (Session.mkSample 1 1 1) 3] = None <->
   length [1; 5] <> 2%nat \/
   Nat.lt (length [h1; h2; h3; h4; h0])
     (Nat.mul (sum_list (map num_decode [mkSampleMeta (Session.mkSample 1 1 1) 3]))
              (Z.to_nat (nth 1 [1; 5] 0)))).
Proof.
  assert (Hl : Z.of_nat (length [h1; h2; h3; h4; h0]) < 2 ^ 64) by (simpl; lia).
  split; [exact Hl|]. split; [vm_compute; reflexivity|].
  exact (proj1 (sample_layout (fun _ row => hd 0 row) [1; 5] _
                  [mkSampleMeta (Session.mkSample 1 1 1) 3] Hl)).
Defined.

End MixtralCpuMore.

(* ----------------------------------------------------------------- *)
(** ** Interactive chat: the bookkeeping of sessions *)

Module ChatMore.
Import Chat.
Import (notations) Stdlib.Strings.String.

Lemma incr_Some (n n' : Z) : incr n = Some n' -> n' = n + 1 /\ n < usize_max.
Proof. unfold incr. destruct (Z.ltb_spec n usize_max); intros [=]; lia. Qed.

Lemma incr_ok (n : Z) : n < usize_max -> incr n = Some (n + 1).
Proof. unfold incr. destruct (Z.ltb_spec n usize_max); [reflexivity|lia]. Qed.

Section Bookkeeping.
Context {Sess : Type} `{CS : ChatServices Sess}.

(** [self.sessions.iter().next()] yields a key of the map, and nothing
    only on an empty map. *)
Hypothesis pick_in : forall m id, hash_first m = Some id -> is_Some (m !! id).
Hypothesis pick_none : forall m, hash_first m = None -> m = ∅.

(** How one call changes the sessions: the ones other than [cur] are
    kept or dropped, and the only id that can appear is [fresh]. *)
Let frame (m m' : gmap Z Sess) (cur fresh : Z) : Prop :=
  (forall id s, m !! id = Some s -> id <> cur -> m' !! id = Some s \/ m' !! id = None) /\
  (forall id, m !! id = None -> is_Some (m' !! id) -> id = fresh).

Lemma frame_refl (m : gmap Z Sess) (cur fresh : Z) : frame m m cur fresh.
Proof. split; [auto|]. intros id E [s Hs]. congruence. Qed.

Lemma frame_delete (m : gmap Z Sess) (t cur fresh : Z) : frame m (delete t m) cur fresh.
Proof.
  split.
  - intros id s Hs _. destruct (decide (t = id)) as [->|Hne].
    + right. apply lookup_delete_eq.
    + left. rewrite lookup_delete_ne by exact Hne. exact Hs.
  - intros id E [s Hs]. apply lookup_delete_Some in Hs as [_ Hs]. congruence.
Qed.

Lemma frame_insert_cur (m : gmap Z Sess) (cur fresh : Z) (s0 : Sess) :
  is_Some (m !! cur) -> frame m (<[cur := s0]> m) cur fresh.
Proof.
  intros Hc. split.
  - intros id s Hs Hne. left. rewrite lookup_insert_ne by congruence. exact Hs.
  - intros id E [s Hs]. apply lookup_insert_Some in Hs as [[<- _]|[_ Hs]].
    + destruct Hc. congruence.
    + congruence.
Qed.

Lemma frame_insert_fresh (m : gmap Z Sess) (cur fresh : Z) (s0 : Sess) :
  m !! fresh = None -> frame m (<[fresh := s0]> m) cur fresh.
Proof.
  intros Hf. split.
  - intros id s Hs _. left. rewrite lookup_insert_ne by congruence. exact Hs.
  - intros id E [s Hs]. apply lookup_insert_Some in Hs as [[<- _]|[_ Hs]]; congruence.
Qed.

Lemma fresh_next (c : Chatting Sess) : chat_inv c -> sessions c !! next_id c = None.
Proof.
  intros [Hk _]. destruct (sessions c !! next_id c) as [s|] eqn:E; [|reflexivity].
  apply Hk in E. lia.
Qed.

Lemma add_session_step (c c' : Chatting Sess) (s : Sess) :
  chat_inv c -> add_session c s = Some c' ->
  chat_inv c' /\ next_id c' = next_id c + 1 /\
  frame (sessions c) (sessions c') (current c) (next_id c).
Proof.
  intros Hi. unfold add_session.
  destruct (incr (next_id c)) as [n|] eqn:En; [|discriminate].
  apply incr_Some in En as [-> _]. intros [= <-]. simpl.
  split; [|split; [reflexivity|apply frame_insert_fresh, fresh_next, Hi]].
  split; simpl; [|lia].
  intros id s' Hs. apply lookup_insert_Some in Hs as [[<- _]|[_ Hs]]; [lia|].
  apply (proj1 Hi) in Hs. lia.
Qed.

Lemma update_current_step (c c' : Chatting Sess) (f : Sess -> Sess) :
  chat_inv c -> update_current c f = Some c' ->
  chat_inv c' /\ next_id c' = next_id c /\ current c' = current c /\
  frame (sessions c) (sessions c') (current c) (next_id c).
Proof.
  intros Hi. unfold update_current.
  destruct (sessions c !! current c) as [s|] eqn:Ec; [|discriminate].
  intros [= <-]. simpl. split; [|split; [reflexivity|split; [reflexivity|]]].
  - split; simpl; [|apply Hi].
    intros id s' Hs. apply lookup_insert_Some in Hs as [[<- _]|[_ Hs]];
      first [exact (proj1 Hi _ _ Hs) | exact (proj1 Hi _ _ Ec)].
  - apply frame_insert_cur. rewrite Ec. eauto.
Qed.

Lemma ensure_current_step (c c1 : Chatting Sess) :
  chat_inv c -> ensure_current c = Some c1 ->
  chat_inv c1 /\ is_Some (sessions c1 !! current c1) /\
  next_id c <= next_id c1 <= next_id c + 1 /\
  (forall id s, sessions c !! id = Some s -> sessions c1 !! id = Some s) /\
  (forall id, sessions c !! id = None -> is_Some (sessions c1 !! id) -> id = current c1).
Proof.
  intros Hi. unfold ensure_current.
  destruct (sessions c !! current c) as [s|] eqn:Ec.
  - intros [= <-]. repeat split; try apply Hi; try lia; eauto.
    intros id E [s' Hs]. congruence.
  - destruct (hash_first (sessions c)) as [id|] eqn:Hf.
    + intros [= <-]. unfold set_current; simpl.
      destruct (pick_in _ _ Hf) as [s Hs].
      repeat split; simpl; try lia; eauto.
      * apply Hi.
      * apply (proj1 Hi) in Hs. lia.
      * intros id' E [s' Hs']. congruence.
    + apply pick_none in Hf. rewrite Hf, insert_empty, map_size_singleton. simpl.
      rewrite lookup_singleton.
      destruct (decide (current c = next_id c)) as [Heq|Hne].
      * destruct (incr (next_id c)) as [n|] eqn:En; [|discriminate].
        apply incr_Some in En as [-> _]. intros [= <-]. simpl.
        rewrite lookup_singleton_eq.
        repeat split; simpl; try lia; eauto.
        -- intros id s Hs. apply lookup_singleton_Some in Hs as [<- _]. lia.
        -- intros id s Hs. rewrite lookup_empty in Hs. discriminate.
        -- intros id _ [s Hs]. apply lookup_singleton_Some in Hs as [<- _]. reflexivity.
      * intros [= <-]. simpl. rewrite lookup_singleton_eq.
        repeat split; simpl; try lia; eauto.
        -- intros id s Hs. apply lookup_singleton_Some in Hs as [<- _].
           pose proof (proj2 Hi). lia.
        -- apply Hi.
        -- intros id s Hs. rewrite lookup_empty in Hs. discriminate.
        -- intros id _ [s Hs]. apply lookup_singleton_Some in Hs as [<- _]. reflexivity.
Qed.

Lemma execute_command_step (c1 c' : Chatting Sess) (cmd : Command) (b : bool) :
  chat_inv c1 -> execute_command c1 cmd = Some (b, c') ->
  chat_inv c' /\ next_id c1 <= next_id c' <= next_id c1 + 1 /\
  frame (sessions c1) (sessions c') (current c1) (next_id c1).
Proof.
  intros Hi.
  assert (Keep : chat_inv c1 /\ next_id c1 <= next_id c1 <= next_id c1 + 1 /\
                 frame (sessions c1) (sessions c1) (current c1) (next_id c1))
    by (split; [exact Hi|split; [lia|apply frame_refl]]).
  assert (Add : forall s c', add_session c1 s = Some c' ->
            chat_inv c' /\ next_id c1 <= next_id c' <= next_id c1 + 1 /\
            frame (sessions c1) (sessions c') (current c1) (next_id c1)).
  { intros s c'' Ha. destruct (add_session_step _ _ _ Hi Ha) as (H1 & H2 & H3).
    split; [exact H1|split; [lia|exact H3]]. }
  assert (Upd : forall f c', update_current c1 f = Some c' ->
            chat_inv c' /\ next_id c1 <= next_id c' <= next_id c1 + 1 /\
            frame (sessions c1) (sessions c') (current c1) (next_id c1)).
  { intros f c'' Hu. destruct (update_current_step _ _ _ Hi Hu) as (H1 & H2 & _ & H3).
    split; [exact H1|split; [lia|exact H3]]. }
  assert (Del : forall t, chat_inv (set_sessions c1 (delete t (sessions c1))) /\
            next_id c1 <= next_id (set_sessions c1 (delete t (sessions c1))) <= next_id c1 + 1 /\
            frame (sessions c1) (sessions (set_sessions c1 (delete t (sessions c1))))
                  (current c1) (next_id c1)).
  { intros t. split; [|split; [simpl; lia|apply frame_delete]].
    split; simpl; [|apply Hi].
    intros id s Hs. apply lookup_delete_Some in Hs as [_ Hs]. exact (proj1 Hi _ _ Hs). }
  unfold execute_command, continue_with.
  destruct cmd; intros H.
  - injection H as <- <-. exact Keep.
  - destruct (add_session c1 launch) eqn:Ea; [|discriminate].
    injection H as <- <-. exact (Add _ _ Ea).
  - destruct (sessions c1 !! current c1) as [s|]; [|discriminate].
    destruct (add_session c1 (fork s)) eqn:Ea; [|discriminate].
    injection H as <- <-. exact (Add _ _ Ea).
  - destruct (parse_usize n) as [t|]; [|injection H as <- <-; exact Keep].
    destruct (sessions c1 !! t) as [s|]; [|injection H as <- <-; exact Keep].
    destruct (add_session c1 (fork s)) eqn:Ea; [|discriminate].
    injection H as <- <-. exact (Add _ _ Ea).
  - destruct (parse_usize n) as [t|]; [|injection H as <- <-; exact Keep].
    destruct (bool_decide (t = current c1)); [injection H as <- <-; exact Keep|].
    destruct (sessions c1 !! t) as [s|] eqn:Et; [|injection H as <- <-; exact Keep].
    injection H as <- <-. unfold set_current. split; [|split; [simpl; lia|apply frame_refl]].
    split; simpl; [apply Hi|]. apply (proj1 Hi) in Et. lia.
  - destruct (sessions c1 !! current c1); [|discriminate].
    injection H as <- <-. apply Del.
  - destruct (parse_usize n) as [t|]; [|injection H as <- <-; exact Keep].
    injection H as <- <-. apply Del.
  - destruct (sessions c1 !! current c1); [|discriminate]. injection H as <- <-. exact Keep.
  - destruct (parse_f32 t) as [v|]; [|injection H as <- <-; exact Keep].
    destruct (update_current c1 (set_temperature v)) eqn:Eu; [|discriminate].
    injection H as <- <-. exact (Upd _ _ Eu).
  - destruct (parse_top_k k) as [v|]; [|injection H as <- <-; exact Keep].
    destruct (update_current c1 (set_top_k v)) eqn:Eu; [|discriminate].
    injection H as <- <-. exact (Upd _ _ Eu).
  - destruct (parse_f32 p) as [v|]; [|injection H as <- <-; exact Keep].
    destruct (update_current c1 (set_top_p v)) eqn:Eu; [|discriminate].
    injection H as <- <-. exact (Upd _ _ Eu).
  - injection H as <- <-. exact Keep.
  - injection H as <- <-. exact Keep.
  - injection H as <- <-. exact Keep.
Qed.

Lemma chat_infer_step (c1 c' : Chatting Sess) (content : text) :
  chat_inv c1 -> chat_infer c1 content = Some c' ->
  chat_inv c' /\ next_id c' = next_id c1 /\
  frame (sessions c1) (sessions c') (current c1) (next_id c1).
Proof.
  intros Hi. unfold chat_infer.
  destruct (sessions c1 !! current c1) as [s|] eqn:Ec; [|discriminate].
  destruct (session_infer content s) as [s'|]; [|discriminate].
  intros [= <-]. simpl. split; [|split; [reflexivity|]].
  - split; simpl; [|apply Hi].
    intros id s'' Hs. apply lookup_insert_Some in Hs as [[<- _]|[_ Hs]];
      first [exact (proj1 Hi _ _ Hs) | exact (proj1 Hi _ _ Ec)].
  - apply frame_insert_cur. rewrite Ec. eauto.
Qed.

(** One round of the chat loop keeps every existing session other than
    the one it works on, the current session once the round has made
    sure there is one: such a session is kept as it was or dropped,
    never overwritten.  [/create] and [/fork] put their session at
    [next_id], an id no session uses, and no other id gets a session.
    The bookkeeping invariant (ids below [next_id], [current] at most
    [next_id]) is kept, and [next_id] grows by at most 2. *)
Theorem iteration_frame (c c' : Chatting Sess) (line : text) (b : bool) :
  chat_inv c -> iteration c line = Some (b, c') ->
  exists c1, ensure_current c = Some c1 /\ is_Some (sessions c1 !! current c1) /\
    (forall id s, sessions c !! id = Some s -> sessions c1 !! id = Some s) /\
    sessions c1 !! next_id c1 = None /\
    (forall id s, sessions c1 !! id = Some s -> id <> current c1 ->
       sessions c' !! id = Some s \/ sessions c' !! id = None) /\
    (forall id, sessions c1 !! id = None -> is_Some (sessions c' !! id) -> id = next_id c1) /\
    chat_inv c' /\ next_id c <= next_id c' <= next_id c + 2.
Proof.
  intros Hi H. unfold iteration in H.
  destruct (ensure_current c) as [c1|] eqn:Ee; [|discriminate].
  destruct (ensure_current_step _ _ Hi Ee) as (Hi1 & Hc1 & Hn1 & Hk1 & _).
  exists c1. split; [reflexivity|]. split; [exact Hc1|]. split; [exact Hk1|].
  split; [apply fresh_next, Hi1|].
  destruct (trim line) as [|ch rest].
  - injection H as <- <-. split; [intros; left; assumption|].
    split; [intros id E [s Hs]; congruence|]. split; [exact Hi1|lia].
  - destruct (ch =? 47).
    + destruct (execute_command_step _ _ _ _ Hi1 H) as (Hi' & Hn' & Hf1 & Hf2).
      split; [exact Hf1|]. split; [exact Hf2|]. split; [exact Hi'|lia].
    + unfold continue_with in H.
      destruct (chat_infer c1 (ch :: rest)) as [c2|] eqn:Ei; [|discriminate].
      injection H as <- <-.
      destruct (chat_infer_step _ _ _ Hi1 Ei) as (Hi' & Hn' & Hf1 & Hf2).
      split; [exact Hf1|]. split; [exact Hf2|]. split; [exact Hi'|lia].
Qed.

(** [Session::chat] and the decoding loop of [Chatting::infer] do not
    fail. *)
Hypothesis infer_total : forall t s, is_Some (session_infer t s).

Lemma ensure_current_total (c : Chatting Sess) :
  chat_inv c -> next_id c < usize_max -> is_Some (ensure_current c).
Proof.
  intros Hi Hn. unfold ensure_current.
  destruct (sessions c !! current c); [eauto|].
  destruct (hash_first (sessions c)) as [id|] eqn:Hf; [eauto|].
  apply pick_none in Hf. rewrite Hf, insert_empty, map_size_singleton. simpl.
  rewrite lookup_singleton. destruct (decide (current c = next_id c)); [|eauto].
  rewrite incr_ok by exact Hn. simpl. eauto.
Qed.

Lemma execute_command_total (c1 : Chatting Sess) (cmd : Command) :
  is_Some (sessions c1 !! current c1) -> next_id c1 < usize_max ->
  is_Some (execute_command c1 cmd).
Proof.
  intros [s Hs] Hn. unfold execute_command, continue_with, add_session, update_current.
  rewrite incr_ok by exact Hn.
  destruct cmd; rewrite ?Hs; eauto;
    repeat match goal with
           | |- context [match ?x with _ => _ end] => destruct x; eauto
           end.
Qed.

Lemma iteration_total (c : Chatting Sess) (line : text) :
  chat_inv c -> next_id c + 1 < usize_max -> is_Some (iteration c line).
Proof.
  intros Hi Hn. unfold iteration.
  destruct (ensure_current_total c Hi ltac:(lia)) as [c1 Ee]. rewrite Ee.
  destruct (ensure_current_step _ _ Hi Ee) as (Hi1 & [s Hs] & Hn1 & _).
  destruct (trim line) as [|ch rest]; [eauto|].
  destruct (ch =? 47).
  - apply execute_command_total; [eauto|lia].
  - unfold continue_with, chat_infer. rewrite Hs.
    destruct (infer_total (ch :: rest) s) as [s' ->]. eauto.
Qed.

Lemma run_total (c : Chatting Sess) (lines : list text) :
  chat_inv c -> next_id c + 2 * Z.of_nat (length lines) < usize_max -> is_Some (run c lines).
Proof.
  revert c. induction lines as [|l ls IH]; intros c Hi Hn; simpl; [eauto|].
  destruct (iteration_total c l Hi ltac:(simpl in Hn; lia)) as [[b c'] E].
  rewrite E. destruct (iteration_frame c c' l b Hi E) as (_ & _ & _ & _ & _ & _ & _ & Hi' & Hn').
  destruct b; [|eauto]. apply IH; [exact Hi'|]. simpl in Hn. lia.
Qed.

(** The chat loop started as [ChatArgs::typed] starts it never panics
    on its own bookkeeping (an unwrap, an assertion or an overflow of
    [next_id]), whatever lines it reads, as long as their number is
    below [(usize::MAX - 1) / 2]; it stops at the end of the input or at
    [/exit]. *)
Theorem chat_never_panics (lines : list text) :
  2 * Z.of_nat (length lines) < usize_max -> is_Some (run initial lines).
Proof.
  intros Hn. apply run_total; [|simpl; lia].
  split; simpl; [|lia]. intros id s Hs. rewrite lookup_empty in Hs. discriminate.
Qed.

End Bookkeeping.

(** [/exit], whose line may carry blanks around it, ends the loop at
    once: the lines after it are never read, and the state is the one
    the round started with once it made sure there is a current
    session. *)
Theorem exit_stops {Sess : Type} `{ChatServices Sess}
  (c : Chatting Sess) (pre post : text) (rest : list text) :
  Forall (fun ch => is_whitespace ch = true) pre ->
  Forall (fun ch => is_whitespace ch = true) post ->
  run c ((pre ++ chars "/exit" ++ post) :: rest) = ensure_current c.
Proof.
  intros Hpre Hpost.
  assert (Ht : trim (pre ++ chars "/exit" ++ post) = chars "/exit").
  { unfold trim.
    assert (Hs : forall p l, Forall (fun ch => is_whitespace ch = true) p ->
                   trim_start (p ++ l) = trim_start l).
    { intros p l Hp. induction Hp as [|x p Hx Hp IH]; [reflexivity|].
      simpl. rewrite Hx. exact IH. }
    assert (Hc : chars "/exit" = [47; 101; 120; 105; 116]) by reflexivity.
    rewrite Hc, Hs by exact Hpre.
    replace (trim_start ([47; 101; 120; 105; 116] ++ post))
      with ([47; 101; 120; 105; 116] ++ post) by reflexivity.
    rewrite rev_app_distr, Hs by (apply Forall_rev; exact Hpost).
    reflexivity. }
  cbn [run]. unfold iteration.
  destruct (ensure_current c) as [c1|]; [|reflexivity].
  rewrite Ht. reflexivity.
Qed.

Lemma counting_pick_in :
  forall (m : gmap Z nat) id, hash_first m = Some id -> is_Some (m !! id).
Proof.
  intros m id H. simpl in H.
  destruct (head (map_to_list m)) as [[k v]|] eqn:E; simpl in H; [|discriminate].
  injection H as <-. exists v. apply elem_of_map_to_list, head_Some_elem_of. exact E.
Qed.

Lemma counting_pick_none : forall (m : gmap Z nat), hash_first m = None -> m = ∅.
Proof.
  intros m H. simpl in H. apply map_to_list_empty_iff.
  destruct (map_to_list m); [reflexivity|discriminate].
Qed.

Lemma counting_infer_total : forall t (s : nat), is_Some (session_infer t s).
Proof. intros t s. simpl. eauto. Qed.

Lemma iteration_frame_witness :
  chat_inv (@initial nat) /\
  iteration (@initial nat) (chars "/create") =
    Some (true, mkChatting 1 2 (<[1 := 0%nat]> {[0 := 0%nat]})) /\
  exists c1, ensure_current (@initial nat) = Some c1 /\ is_Some (sessions c1 !! current c1) /\
    (forall id s, sessions (@initial nat) !! id = Some s -> sessions c1 !! id = Some s) /\
    sessions c1 !! next_id c1 = None /\
    (forall id s, sessions c1 !! id = Some s -> id <> current c1 ->
       sessions (mkChatting 1 2 (<[1 := 0%nat]> {[0 := 0%nat]})) !! id = Some s \/
       sessions (mkChatting 1 2 (<[1 := 0%nat]> {[0 := 0%nat]})) !! id = None) /\
    (forall id, sessions c1 !! id = None ->
       is_Some (sessions (mkChatting 1 2 (<[1 := 0%nat]> {[0 := 0%nat]})) !! id) ->
       id = next_id c1) /\
    chat_inv (mkChatting 1 2 (<[1 := 0%nat]> {[0 := 0%nat]})) /\
    next_id (@initial nat) <= next_id (mkChatting 1 2 (<[1 := 0%nat]> {[0 := 0%nat]}))
      <= next_id (@initial nat) + 2.
Proof.
  assert (Hi : chat_inv (@initial nat)).
  { split; simpl; [|lia]. intros id s Hs. rewrite lookup_empty in Hs. discriminate. }
  assert (He : iteration (@initial nat) (chars "/create") =
                 Some (true, mkChatting 1 2 (<[1 := 0%nat]> {[0 := 0%nat]})))
    by (vm_compute; reflexivity).
  split; [exact Hi|]. split; [exact He|].
  exact (iteration_frame counting_pick_in counting_pick_none _ _ _ _ Hi He).
Defined.

Lemma chat_never_panics_witness :
  2 * Z.of_nat (length [chars "/create"; chars "hello"; chars "/drop 0"; chars "/exit"])
    < usize_max /\
  is_Some (run (@initial nat) [chars "/create"; chars "hello"; chars "/drop 0"; chars "/exit"]).
Proof.
  assert (Hn : 2 * Z.of_nat (length [chars "/create"; chars "hello"; chars "/drop 0";
                                     chars "/exit"]) < usize_max)
    by (unfold usize_max; simpl; lia).
  split; [exact Hn|].
  exact (chat_never_panics counting_pick_in counting_pick_none counting_infer_total _ Hn).
Defined.

Lemma exit_stops_witness :
  Forall (fun ch => is_whitespace ch = true) [32] /\
  Forall (fun ch => is_whitespace ch = true) [9; 10] /\
  run (@initial nat) (([32] ++ chars "/exit" ++ [9; 10]) :: [chars "hello"]) =
    ensure_current (@initial nat).
Proof.
  assert (H1 : Forall (fun ch => is_whitespace ch = true) [32]) by (repeat constructor).
  assert (H2 : Forall (fun ch => is_whitespace ch = true) [9; 10]) by (repeat constructor).
  split; [exact H1|]. split; [exact H2|].
  exact (exit_stops (@initial nat) [32] [9; 10] [chars "hello"] H1 H2).
Defined.

End ChatMore.
